(** * Linux accent colour detection (src/main/linux-accent-color.js)

    A shallow embedding of the accent colour module: the three probing
    strategies, the command helper they share, and the dispatcher
    [getLinuxAccentColor] with its module variable [usedStrategyIndex].

    JavaScript strings are sequences of UTF-16 code units; Numbers are IEEE 754
    binary64 values, taken from the specification of floating-point arithmetic
    of the standard library ([SpecFloat], precision 53, emax 1024). *)

From Stdlib Require Import ZArith NArith PeanoNat List Bool String Ascii Lia.
From Stdlib Require Import SpecFloat.
Import ListNotations.

Set Implicit Arguments.

Local Open Scope list_scope.

(** ** JavaScript strings *)

Module JSString.

(** A string is the list of its code units. *)
Definition jsstring := list N.

(** [str] turns a literal of the development into a JavaScript string. *)
Definition str (s : string) : jsstring :=
  map N_of_ascii (list_ascii_of_string s).

Definition jsstring_eqb (a b : jsstring) : bool :=
  if list_eq_dec N.eq_dec a b then true else false.

(** WhiteSpace and LineTerminator code points of ECMAScript: what
    [String.prototype.trim] strips and what [\s] matches. *)
Definition is_white_space (c : N) : bool :=
  existsb (N.eqb c)
    [0x09; 0x0A; 0x0B; 0x0C; 0x0D; 0x20; 0xA0; 0x1680;
     0x2000; 0x2001; 0x2002; 0x2003; 0x2004; 0x2005; 0x2006; 0x2007;
     0x2008; 0x2009; 0x200A; 0x2028; 0x2029; 0x202F; 0x205F; 0x3000;
     0xFEFF]%N.

(** [\d] without the unicode flag: the ten ASCII digits. *)
Definition is_digit (c : N) : bool := (48 <=? c)%N && (c <=? 57)%N.

Fixpoint trimStart (s : jsstring) : jsstring :=
  match s with
  | c :: s' => if is_white_space c then trimStart s' else s
  | [] => []
  end.

Definition trimEnd (s : jsstring) : jsstring := rev (trimStart (rev s)).

(** [String.prototype.trim] *)
Definition trim (s : jsstring) : jsstring := trimEnd (trimStart s).

(** [String.prototype.padStart(2, '0')] *)
Definition padStart2 (s : jsstring) : jsstring :=
  match s with
  | [] => str "00"
  | [c] => str "0" ++ [c]
  | _ => s
  end.

End JSString.
Export JSString.

(** ** Regular expressions

    The fragment of ECMAScript patterns the module uses: characters, character
    classes, greedy [+] over a class, greedy optional groups, alternation,
    capture groups and the two anchors (no flags but [g], so [^] and [$] are
    the ends of the input).  The matcher is the backtracking matcher of the
    language specification in continuation-passing style: a continuation that
    fails makes the matcher try its next choice. *)

Module Regex.

Inductive regex : Type :=
| Chr (c : N)                       (* a pattern character *)
| Class (p : N -> bool)             (* \s, \d, [,.] *)
| Plus (p : N -> bool)              (* class+ , greedy *)
| Cat (r1 r2 : regex)
| Alt (r1 r2 : regex)               (* r1|r2 , left first *)
| Opt (r : regex)                   (* (?:r)? , greedy *)
| Group (n : nat) (r : regex)       (* the n-th capturing parentheses *)
| Bol                               (* ^ *)
| Eol                               (* $ *)
| Eps.

(** The captures of a match: group number to captured text, [None] for
    [undefined]. *)
Definition captures := nat -> option jsstring.

Definition no_captures : captures := fun _ => None.

Definition set_capture (n : nat) (v : jsstring) (c : captures) : captures :=
  fun k => if Nat.eqb k n then Some v else c k.

(** A literal word as a pattern. *)
Fixpoint word (cs : jsstring) : regex :=
  match cs with
  | [] => Eps
  | [c] => Chr c
  | c :: cs' => Cat (Chr c) (word cs')
  end.

Definition lit (s : string) : regex := word (str s).

(** [alts [r1; ...; rn]] is [r1|...|rn]. *)
Fixpoint alts (rs : list regex) : regex :=
  match rs with
  | [] => Class (fun _ => false)
  | [r] => r
  | r :: rs' => Alt r (alts rs')
  end.

Section Matcher.
Context {A : Type}.

(** Greedy iteration of a class, at least once: take one character, try to
    take more, and fall back to stopping here. *)
Fixpoint match_plus (p : N -> bool) (i : nat) (s : jsstring)
         (k : nat -> jsstring -> option A) : option A :=
  match s with
  | x :: s' =>
      if p x then
        match match_plus p (S i) s' k with
        | Some a => Some a
        | None => k (S i) s'
        end
      else None
  | [] => None
  end.

(** [rmatch r i s c k]: match [r] at index [i], where [s] is the input from
    [i] on and [c] the captures so far, then continue with [k]. *)
Fixpoint rmatch (r : regex) (i : nat) (s : jsstring) (c : captures)
         (k : nat -> jsstring -> captures -> option A) : option A :=
  match r with
  | Chr a =>
      match s with
      | x :: s' => if N.eqb x a then k (S i) s' c else None
      | [] => None
      end
  | Class p =>
      match s with
      | x :: s' => if p x then k (S i) s' c else None
      | [] => None
      end
  | Plus p => match_plus p i s (fun i' s' => k i' s' c)
  | Cat r1 r2 => rmatch r1 i s c (fun i' s' c' => rmatch r2 i' s' c' k)
  | Alt r1 r2 =>
      match rmatch r1 i s c k with
      | Some a => Some a
      | None => rmatch r2 i s c k
      end
  | Opt r1 =>
      (* an iteration that consumes nothing is rejected *)
      match rmatch r1 i s c
              (fun i' s' c' => if Nat.eqb i' i then None else k i' s' c') with
      | Some a => Some a
      | None => k i s c
      end
  | Group n r1 =>
      rmatch r1 i s c
        (fun i' s' c' => k i' s' (set_capture n (firstn (i' - i) s) c'))
  | Bol => if Nat.eqb i 0 then k i s c else None
  | Eol => match s with [] => k i s c | _ :: _ => None end
  | Eps => k i s c
  end.
End Matcher.

(** One attempt at index [i]: the end index and the captures. *)
Definition match_at (r : regex) (i : nat) (s : jsstring) : option (nat * captures) :=
  rmatch r i s no_captures (fun i' _ c' => Some (i', c')).

(** [String.prototype.match] with a pattern without the [g] flag: the first
    index, from [i] on, at which the pattern matches. *)
Fixpoint exec_from (r : regex) (i : nat) (s : jsstring) : option captures :=
  match match_at r i s with
  | Some (_, c) => Some c
  | None =>
      match s with
      | [] => None
      | _ :: s' => exec_from r (S i) s'
      end
  end.

Definition jsmatch (r : regex) (s : jsstring) : option captures := exec_from r 0 s.

(** [String.prototype.matchAll] with a [g] pattern, as the list of the
    captures of the successive matches.  After a match ending at [e] the search
    resumes at [e] (at [e + 1] after an empty match); [skip] counts the
    characters still to pass over before the search resumes. *)
Fixpoint matchAll_from (r : regex) (i : nat) (s : jsstring) (skip : nat)
  : list captures :=
  match skip with
  | S n =>
      match s with
      | [] => []
      | _ :: s' => matchAll_from r (S i) s' n
      end
  | O =>
      match match_at r i s with
      | Some (e, c) =>
          c :: match s with
               | [] => []
               | _ :: s' => matchAll_from r (S i) s' (Nat.pred (e - i))
               end
      | None =>
          match s with
          | [] => []
          | _ :: s' => matchAll_from r (S i) s' 0
          end
      end
  end.

Definition matchAll (r : regex) (s : jsstring) : list captures :=
  matchAll_from r 0 s 0.

(** What a pattern matches, without the order in which the matcher tries its
    choices: [denote r i w rest c c'] when [r] can match the text [w] at index
    [i], followed by [rest], taking the captures from [c] to [c']. *)
Fixpoint denote (r : regex) (i : nat) (w rest : jsstring) (c c' : captures) : Prop :=
  match r with
  | Chr a => w = [a] /\ c' = c
  | Class p => exists x, w = [x] /\ p x = true /\ c' = c
  | Plus p => w <> [] /\ forallb p w = true /\ c' = c
  | Cat r1 r2 =>
      exists w1 w2 c1,
        w = w1 ++ w2 /\ denote r1 i w1 (w2 ++ rest) c c1 /\
        denote r2 (i + List.length w1) w2 rest c1 c'
  | Alt r1 r2 => denote r1 i w rest c c' \/ denote r2 i w rest c c'
  | Opt r1 => (w = [] /\ c' = c) \/ (w <> [] /\ denote r1 i w rest c c')
  | Group n r1 => exists c1, denote r1 i w rest c c1 /\ c' = set_capture n w c1
  | Bol => w = [] /\ i = 0%nat /\ c' = c
  | Eol => w = [] /\ rest = [] /\ c' = c
  | Eps => w = [] /\ c' = c
  end.

End Regex.
Export Regex.

(** ** JavaScript Numbers *)

Module JSNumber.

Definition prec : Z := 53.
Definition emax : Z := 1024.

Definition number := spec_float.

Definition of_Z (z : Z) : number := binary_normalize prec emax z 0 false.

Definition num_0 : number := S754_zero false.
Definition num_1 : number := Eval vm_compute in of_Z 1.
Definition num_255 : number := Eval vm_compute in of_Z 255.

(** [x * y], [x < y] and [x > y] on Numbers. *)
Definition num_mul (x y : number) : number := SFmul prec emax x y.
Definition num_lt (x y : number) : bool := SFltb x y.
Definition num_gt (x y : number) : bool := SFltb y x.
Definition num_le (x y : number) : bool := SFleb x y.

(** The Number nearest to [m * 10^x], ties to even, for a natural number [m]:
    the rounding of a decimal literal. *)
Definition decimal_to_number (m x : Z) : number :=
  match m with
  | Z0 => S754_zero false
  | _ =>
      if (0 <=? x)%Z then binary_normalize prec emax (m * 10 ^ x) 0 false
      else
        let '(q, e, l) := SFdiv_core_binary prec emax m 0 (10 ^ (- x)) 0 in
        binary_round_aux prec emax false q e l
  end.

Definition digit_value (c : N) : Z := Z.of_N c - 48.

Definition digits_to_Z (ds : jsstring) : Z :=
  fold_left (fun acc c => 10 * acc + digit_value c)%Z ds 0%Z.

(** The longest prefix of digits, and what follows it. *)
Fixpoint span_digits (s : jsstring) : jsstring * jsstring :=
  match s with
  | c :: s' =>
      if is_digit c then let '(ds, r) := span_digits s' in (c :: ds, r)
      else ([], s)
  | [] => ([], [])
  end.

Fixpoint starts_with (p s : jsstring) : bool :=
  match p, s with
  | [], _ => true
  | a :: p', b :: s' => N.eqb a b && starts_with p' s'
  | _ :: _, [] => false
  end.

(** [strip c s]: what follows the character [c] at the head of [s]. *)
Definition strip (c : N) (s : jsstring) : option jsstring :=
  match s with
  | x :: r => if N.eqb x c then Some r else None
  | [] => None
  end.

(** ExponentPart, when one follows: [e] or [E], a sign, digits. *)
Definition parse_exponent (s : jsstring) : Z :=
  match s with
  | c :: s1 =>
      if N.eqb c 101 || N.eqb c 69 then
        let '(sign, s2) :=
          match strip 43 s1, strip 45 s1 with
          | Some r, _ => (1%Z, r)
          | None, Some r => ((-1)%Z, r)
          | None, None => (1%Z, s1)
          end in
        match fst (span_digits s2) with
        | [] => 0%Z
        | ds => (sign * digits_to_Z ds)%Z
        end
      else 0%Z
  | [] => 0%Z
  end.

(** The longest prefix that is a StrUnsignedDecimalLiteral, as its value. *)
Definition parse_unsigned (s : jsstring) : option number :=
  if starts_with (str "Infinity") s then Some (S754_infinity false)
  else
    let '(int, r1) := span_digits s in
    match int, strip 46 r1 with
    | [], Some r2 =>
        let '(frac, r3) := span_digits r2 in
        match frac with
        | [] => None
        | _ => Some (decimal_to_number (digits_to_Z frac)
                       (parse_exponent r3 - Z.of_nat (List.length frac)))
        end
    | [], None => None
    | _, Some r2 =>
        let '(frac, r3) := span_digits r2 in
        Some (decimal_to_number (digits_to_Z (int ++ frac))
                (parse_exponent r3 - Z.of_nat (List.length frac)))
    | _, None => Some (decimal_to_number (digits_to_Z int) (parse_exponent r1))
    end.

(** [parseFloat]: leading white space is skipped, then the longest prefix that
    is a StrDecimalLiteral is read; [NaN] when there is none.  Decimal
    literals are rounded to the nearest Number. *)
Definition parseFloat (s : jsstring) : number :=
  let t := trimStart s in
  let unsigned r :=
    match parse_unsigned r with Some v => v | None => S754_nan end in
  match strip 45 t, strip 43 t with
  | Some r, _ => SFopp (unsigned r)
  | None, Some r => unsigned r
  | None, None => unsigned t
  end.

(** [Math.floor] *)
Definition Math_floor (x : number) : number :=
  match x with
  | S754_finite s m e =>
      if (0 <=? e)%Z then x
      else
        match Z.shiftr (cond_Zopp s (Zpos m)) (- e) with
        | Z0 => S754_zero s
        | z => binary_normalize prec emax z 0 s
        end
  | _ => x
  end.

Definition hex_digit (d : Z) : N :=
  if (d <? 10)%Z then Z.to_N (48 + d) else Z.to_N (87 + d).

Fixpoint to_hex (fuel : nat) (n : Z) (acc : jsstring) : jsstring :=
  match fuel with
  | O => acc
  | S fuel' =>
      if (n <? 16)%Z then hex_digit n :: acc
      else to_hex fuel' (n / 16)%Z (hex_digit (n mod 16) :: acc)
  end.

(** The digits of a natural number in base 16. *)
Definition hex_of_Z (n : Z) : jsstring :=
  to_hex (S (Z.to_nat (Z.log2 n))) n [].

(** [Number.prototype.toString(16)] on a Number with an integral value (the
    module applies it to results of [Math.floor] only; the digits after the
    point of other values are not rendered). *)
Definition Number_toString16 (x : number) : jsstring :=
  match x with
  | S754_nan => str "NaN"
  | S754_zero _ => str "0"
  | S754_infinity s => (if s then str "-" else []) ++ str "Infinity"
  | S754_finite s m e =>
      (if s then str "-" else []) ++ hex_of_Z (Z.shiftl (Zpos m) e)
  end.

End JSNumber.
Export JSNumber.

(** ** The three strategies, as functions of the output of their command *)

Module Strategies.

(** A colour is a string such as [#e95420]; [None] is [null]. *)
Definition color := jsstring.

Definition is_comma_or_dot (c : N) : bool := N.eqb c 44 || N.eqb c 46.

(** [/double\s+(\d+(?:[,.]\d+)?)/g] *)
Definition portal_re : regex :=
  Cat (lit "double")
    (Cat (Plus is_white_space)
       (Group 1
          (Cat (Plus is_digit)
             (Opt (Cat (Class is_comma_or_dot) (Plus is_digit)))))).

(** [match[n]] where a string is expected: [undefined] reads as the string
    [undefined]. *)
Definition group_text (m : captures) (n : nat) : jsstring :=
  match m n with
  | Some t => t
  | None => str "undefined"
  end.

(** The channel of one match: [Math.floor(value * 255).toString(16).padStart(2, '0')] *)
Definition channel_hex (value : number) : jsstring :=
  padStart2 (Number_toString16 (Math_floor (num_mul value num_255))).

(** The loop over the matches of [xdgDesktopPortal], with its early return. *)
Fixpoint portal_loop (matches : list captures) (hex : jsstring) : option color :=
  match matches with
  | [] => Some hex
  | m :: rest =>
      let value := parseFloat (group_text m 1) in
      if num_lt value num_0 || num_gt value num_1 then None
      else portal_loop rest (hex ++ channel_hex value)
  end.

Definition xdgDesktopPortal_color (output : jsstring) : option color :=
  let matches := matchAll portal_re (trim output) in
  if negb (Nat.eqb (List.length matches) 3) then None
  else portal_loop matches (str "#").

(** A [switch] over string cases whose [default] returns [null]. *)
Fixpoint switch (v : jsstring) (cases : list (string * string)) : option color :=
  match cases with
  | [] => None
  | (name, hex) :: cases' =>
      if jsstring_eqb v (str name) then Some (str hex) else switch v cases'
  end.

Definition yaru_variants : list string :=
  ["bark"; "sage"; "olive"; "viridian"; "prussiangreen"; "blue"; "purple";
   "magenta"; "red"]%string.

(** [/^'Yaru(?:-(bark|sage|olive|viridian|prussiangreen|blue|purple|magenta|red))?(?:-dark)?'$/] *)
Definition ubuntu_re : regex :=
  Cat Bol
    (Cat (lit "'Yaru")
       (Cat (Opt (Cat (Chr 45) (Group 1 (alts (map lit yaru_variants)))))
          (Cat (Opt (lit "-dark"))
             (Cat (Chr 39) Eol)))).

Definition yaru_cases : list (string * string) :=
  [("bark", "#787859"); ("sage", "#657b69"); ("olive", "#4b8501");
   ("viridian", "#03875b"); ("prussiangreen", "#308280"); ("blue", "#0073e5");
   ("purple", "#7764d8"); ("magenta", "#b34bc3"); ("red", "#da3450")]%string.

Definition ubuntu_color (output : jsstring) : option color :=
  match jsmatch ubuntu_re (trim output) with
  | None => None
  | Some m =>
      match m 1%nat with
      | None => Some (str "#e95420")
      | Some variant => switch variant yaru_cases
      end
  end.

Definition extension_names : list string :=
  ["green"; "yellow"; "orange"; "red"; "pink"; "purple"; "brown"]%string.

(** [/^'(green|yellow|orange|red|pink|purple|brown)'$/] *)
Definition extension_re : regex :=
  Cat Bol
    (Cat (Chr 39)
       (Cat (Group 1 (alts (map lit extension_names)))
          (Cat (Chr 39) Eol))).

Definition extension_cases : list (string * string) :=
  [("green", "#2ec27e"); ("yellow", "#f5c211"); ("orange", "#e66100");
   ("red", "#c01c28"); ("pink", "#dc8add"); ("purple", "#813d9c");
   ("brown", "#865e3c")]%string.

Definition gnomeCustomAccentColorExtension_color (output : jsstring) : option color :=
  match jsmatch extension_re (trim output) with
  | None => None
  | Some m =>
      match m 1%nat with
      | None => None
      | Some name => switch name extension_cases
      end
  end.

End Strategies.
Export Strategies.

(** ** Asynchronous code

    An [async] function is a tree of its effects: spawning a child process and
    awaiting its [close] event, and reading and writing the module variable
    [usedStrategyIndex].  A rejected promise and a [throw] are both [Throw]. *)

Module Async.

Record command : Type := { file : string; args : list string }.

(** What a child process has produced when its [close] event fires. *)
Record child_process : Type := {
  error_event : option jsstring;     (* the [err] of an 'error' event *)
  exitCode : option Z;               (* [null] when ended by a signal *)
  stdout_data : list jsstring;       (* the chunks of the 'data' events *)
  stderr_data : list jsstring
}.

Inductive error : Type :=
| SpawnError (err : jsstring)
    (* the process could not be started *)
| ExitFailure (code : option Z) (errorOutput : jsstring)
    (* the rejection [`Exit code: ${code}, Stderr: ${errorOutput}`] *)
| TypeError.
    (* calling [strategies[i]] when it is [undefined] *)

Inductive prog (A : Type) : Type :=
| Ret (a : A)
| Throw (e : error)
| Spawn (c : command) (k : child_process -> prog A)
| Load (k : option Z -> prog A)
| Store (v : Z) (k : prog A).

Arguments Ret {A} a.
Arguments Throw {A} e.
Arguments Spawn {A} c k.
Arguments Load {A} k.
Arguments Store {A} v k.

Fixpoint bind {A B : Type} (p : prog A) (f : A -> prog B) : prog B :=
  match p with
  | Ret a => f a
  | Throw e => Throw e
  | Spawn c k => Spawn c (fun r => bind (k r) f)
  | Load k => Load (fun v => bind (k v) f)
  | Store v k => Store v (bind k f)
  end.

(** [try { p } catch (e) { h e }] *)
Fixpoint try_catch {A : Type} (p : prog A) (h : error -> prog A) : prog A :=
  match p with
  | Ret a => Ret a
  | Throw e => h e
  | Spawn c k => Spawn c (fun r => try_catch (k r) h)
  | Load k => Load (fun v => try_catch (k v) h)
  | Store v k => Store v (try_catch k h)
  end.

End Async.
Export Async.

Notation "x <- p ;; q" := (bind p (fun x => q))
  (at level 61, p at next level, right associativity).

(** ** The module *)

Module AccentColor.

(** The [close] handler of [runCommandHelper]. *)
Definition on_close (child : child_process) : prog jsstring :=
  let output := List.concat (stdout_data child) in
  let errorOutput := List.concat (stderr_data child) in
  match error_event child with
  | Some err => Throw (SpawnError err)
  | None =>
      match exitCode child with
      | Some 0%Z => Ret output
      | code => Throw (ExitFailure code errorOutput)
      end
  end.

Definition runCommandHelper (command : string) (arguments : list string)
  : prog jsstring :=
  Spawn {| file := command; args := arguments |} on_close.

Definition portal_command : command :=
  {| file := "dbus-send";
     args := ["--print-reply=literal"; "--type=method_call";
              "--dest=org.freedesktop.portal.Desktop";
              "/org/freedesktop/portal/desktop";
              "org.freedesktop.portal.Settings.ReadOne";
              "string:org.freedesktop.appearance";
              "string:accent-color"]%string |}.

Definition ubuntu_command : command :=
  {| file := "gsettings";
     args := ["get"; "org.gnome.desktop.interface"; "gtk-theme"]%string |}.

Definition extension_command : command :=
  {| file := "gsettings";
     args := ["get"; "org.gnome.shell.extensions.custom-accent-colors";
              "accent-color"]%string |}.

Definition xdgDesktopPortal : prog (option color) :=
  output <- runCommandHelper (file portal_command) (args portal_command) ;;
  Ret (xdgDesktopPortal_color output).

Definition ubuntu : prog (option color) :=
  output <- runCommandHelper (file ubuntu_command) (args ubuntu_command) ;;
  Ret (ubuntu_color output).

Definition gnomeCustomAccentColorExtension : prog (option color) :=
  output <- runCommandHelper (file extension_command) (args extension_command) ;;
  Ret (gnomeCustomAccentColorExtension_color output).

Definition strategies : list (prog (option color)) :=
  [xdgDesktopPortal; ubuntu; gnomeCustomAccentColorExtension].

(** The [for] loop of [getLinuxAccentColor] from index [i] on, [rest] being
    the strategies from [i] on, and the two statements after it.  The [try]
    block leaves the function with a colour or falls through; the empty
    [catch] falls through too. *)
Fixpoint discover (i : Z) (rest : list (prog (option color)))
  : prog (option color) :=
  match rest with
  | [] => Store (-1) (Ret None)
  | strategy :: rest' =>
      accentColor <- try_catch strategy (fun _ => Ret None) ;;
      match accentColor with
      | Some c => Store i (Ret (Some c))
      | None => discover (i + 1) rest'
      end
  end.

(** [strategies[i]()] *)
Definition call_strategy (i : Z) : prog (option color) :=
  if (i <? 0)%Z then Throw TypeError
  else
    match nth_error strategies (Z.to_nat i) with
    | Some strategy => strategy
    | None => Throw TypeError
    end.

Definition getLinuxAccentColor : prog (option color) :=
  Load (fun usedStrategyIndex =>
    match usedStrategyIndex with
    | Some i => if (i =? -1)%Z then Ret None else call_strategy i
    | None => discover 0 strategies
    end).

End AccentColor.
Export AccentColor.

(** ** Running the module

    The host is a state [W] and a function [close] that gives, for a command,
    the child process as it is when it has closed, and the next state of the
    host. *)

Module Runtime.

Inductive result (A : Type) : Type :=
| Val (a : A)            (* the promise is fulfilled with [a] *)
| Exn (e : error).       (* the promise is rejected with [e] *)

Arguments Val {A} a.
Arguments Exn {A} e.

Section Host.
Variable W : Type.
Variable close : command -> W -> child_process * W.

Record state : Type := {
  usedStrategyIndex : option Z;
  host : W;
  spawned : list command          (* the commands spawned so far, in order *)
}.

Definition initial (w : W) : state :=
  {| usedStrategyIndex := None; host := w; spawned := [] |}.

Definition store (v : Z) (st : state) : state :=
  {| usedStrategyIndex := Some v; host := host st; spawned := spawned st |}.

Definition spawn (c : command) (st : state) : state :=
  {| usedStrategyIndex := usedStrategyIndex st; host := host st;
     spawned := spawned st ++ [c] |}.

Definition closed (c : command) (st : state) : child_process * state :=
  let '(child, w) := close c (host st) in
  (child, {| usedStrategyIndex := usedStrategyIndex st; host := w;
             spawned := spawned st |}).

(** A call that runs to its end before anything else runs. *)
Fixpoint run {A : Type} (p : prog A) (st : state) : result A * state :=
  match p with
  | Ret a => (Val a, st)
  | Throw e => (Exn e, st)
  | Spawn c k => let '(child, st') := closed c (spawn c st) in run (k child) st'
  | Load k => run (k (usedStrategyIndex st)) st
  | Store v k => run k (store v st)
  end.

(** [n] calls of [getLinuxAccentColor], each awaited before the next: the
    results, first call first, and the last state. *)
Fixpoint calls (n : nat) (st : state) : list (result (option color)) * state :=
  match n with
  | O => ([], st)
  | S n' =>
      let '(r, st1) := run getLinuxAccentColor st in
      let '(rs, st2) := calls n' st1 in
      (r :: rs, st2)
  end.

(** Calls that overlap.  A pending call awaits the close
    of a child process, or it has settled. *)
Inductive pending (A : Type) : Type :=
| Awaiting (c : command) (k : child_process -> prog A)
| Settled (r : result A).

Arguments Awaiting {A} c k.
Arguments Settled {A} r.

(** Run a call up to its next [await]. *)
Fixpoint advance {A : Type} (p : prog A) (st : state) : pending A * state :=
  match p with
  | Ret a => (Settled (Val a), st)
  | Throw e => (Settled (Exn e), st)
  | Spawn c k => (Awaiting c k, spawn c st)
  | Load k => advance (k (usedStrategyIndex st)) st
  | Store v k => advance k (store v st)
  end.

(** The awaited child process closes and the call goes on. *)
Definition resume {A : Type} (t : pending A) (st : state) : pending A * state :=
  match t with
  | Awaiting c k => let '(child, st') := closed c st in advance (k child) st'
  | Settled r => (t, st)
  end.

Inductive event : Type :=
| Call                   (* [getLinuxAccentColor()] is called *)
| Close (n : nat).       (* the child process awaited by the n-th call closes *)

Fixpoint resume_nth {A : Type} (n : nat) (ts : list (pending A)) (st : state)
  : list (pending A) * state :=
  match ts, n with
  | [], _ => ([], st)
  | t :: ts', O => let '(t', st') := resume t st in (t' :: ts', st')
  | t :: ts', S n' => let '(ts'', st') := resume_nth n' ts' st in (t :: ts'', st')
  end.

Definition step (ev : event) (cfg : list (pending (option color)) * state)
  : list (pending (option color)) * state :=
  let '(ts, st) := cfg in
  match ev with
  | Call => let '(t, st') := advance getLinuxAccentColor st in (ts ++ [t], st')
  | Close n => resume_nth n ts st
  end.

(** The values of [usedStrategyIndex] after each event of a schedule. *)
Fixpoint index_history (evs : list event) (cfg : list (pending (option color)) * state)
  : list (option Z) :=
  match evs with
  | [] => []
  | ev :: evs' =>
      let cfg' := step ev cfg in
      usedStrategyIndex (snd cfg') :: index_history evs' cfg'
  end.

End Host.

Arguments usedStrategyIndex {W} s.
Arguments host {W} s.
Arguments spawned {W} s.
Arguments Awaiting {A} c k.
Arguments Settled {A} r.

End Runtime.
Export Runtime.

(** ** Vocabulary of the statements *)

Module Vocabulary.

(** How the promise of [runCommandHelper] settles for a closed child. *)
Definition transport (child : child_process) : result jsstring :=
  match error_event child with
  | Some err => Exn (SpawnError err)
  | None =>
      match exitCode child with
      | Some 0%Z => Val (List.concat (stdout_data child))
      | code => Exn (ExitFailure code (List.concat (stderr_data child)))
      end
  end.

(** The command and the parser of the strategy at an index. *)
Definition strategy_spec (i : Z) : option (command * (jsstring -> option color)) :=
  match i with
  | 0%Z => Some (portal_command, xdgDesktopPortal_color)
  | 1%Z => Some (ubuntu_command, ubuntu_color)
  | 2%Z => Some (extension_command, gnomeCustomAccentColorExtension_color)
  | _ => None
  end.

(** The outcome of a strategy whose child process closed as [child]. *)
Definition probe (f : jsstring -> option color) (child : child_process)
  : result (option color) :=
  match transport child with
  | Val output => Val (f output)
  | Exn e => Exn e
  end.

(** The values [usedStrategyIndex] takes: [undefined], -1 and the indices. *)
Definition valid_index (u : option Z) : Prop :=
  match u with
  | None => True
  | Some i => (-1 <= i < 3)%Z
  end.


(** A shift record is inexact when one of its two bits is set. *)
Definition inexact (mrs : shr_record) : bool := shr_r mrs || shr_s mrs.

(** The shape of a rounded natural number: no NaN, no sign, at most 53
    binary digits. *)
Definition rounded (x : number) : Prop :=
  match x with
  | S754_zero s => s = false
  | S754_infinity s => s = false
  | S754_nan => False
  | S754_finite s m e => s = false /\ (Z.pos (digits2_pos m) <= prec)%Z
  end.

(** [v] is a normal Number within half a unit in the last place of the
    decimal [m * 10^x], for a negative [x] and a [v] below [2^53]. *)
Definition nearest_to_decimal (m x : Z) (v : number) : bool :=
  match v with
  | S754_finite false M E =>
      (E <? 0)%Z && (x <? 0)%Z && (Z.pos (digits2_pos M) =? prec)%Z
      && (2 * Z.abs (m * 2 ^ (- E) - Z.pos M * 10 ^ (- x)) <=? 10 ^ (- x))%Z
  | _ => false
  end.

(** The integer part of a finite Number, the greatest integer not above it:
    a shift by a negative exponent is a division by a power of 2 that rounds
    down. *)
Definition floor_value (x : number) : Z :=
  match x with
  | S754_finite s m e => Z.shiftl (cond_Zopp s (Z.pos m)) e
  | _ => 0%Z
  end.

(** The channel of a value: the integer part of the value times 255. *)
Definition channel (v : number) : Z := floor_value (num_mul v num_255).

(** A byte as two hexadecimal digits. *)
Definition hex_byte (z : Z) : jsstring :=
  [hex_digit (z / 16); hex_digit (z mod 16)].

Definition is_hex_digit (c : N) : bool :=
  existsb (N.eqb c) (str "0123456789abcdef").

(** The tokens of a portal reply: the text of the number of each match of
    the pattern, in order. *)
Definition portal_tokens (output : jsstring) : list jsstring :=
  map (fun m => group_text m 1) (matchAll portal_re (trim output)).

(** [0 <= v <= 1] *)
Definition in_unit_range (v : number) : bool :=
  num_le num_0 v && num_le v num_1.

(** The colour of a list of tokens: three values in range, three bytes. *)
Definition portal_color_of (tokens : list jsstring) : option color :=
  match tokens with
  | [t1; t2; t3] =>
      let v1 := parseFloat t1 in
      let v2 := parseFloat t2 in
      let v3 := parseFloat t3 in
      if in_unit_range v1 && in_unit_range v2 && in_unit_range v3 then
        Some (str "#" ++ hex_byte (channel v1) ++ hex_byte (channel v2)
                ++ hex_byte (channel v3))
      else None
  | _ => None
  end.

(** An unsigned number as the pattern of the portal captures it: digits,
    then possibly a comma or a point and digits. *)
Definition unsigned_number (t : jsstring) : Prop :=
  exists int rest,
    t = int ++ rest /\ int <> [] /\ forallb is_digit int = true /\
    (rest = [] \/
     exists sep frac,
       rest = sep :: frac /\ is_comma_or_dot sep = true /\
       frac <> [] /\ forallb is_digit frac = true).

Definition starts_with_digit (t : jsstring) : Prop :=
  exists d rest, t = d :: rest /\ is_digit d = true.

(** The theme names of Ubuntu: [suffix] is empty or a dash and a variant. *)
Definition yaru_theme (suffix : string) (dark : bool) : jsstring :=
  str "'Yaru" ++ str suffix ++ (if dark then str "-dark" else []) ++ str "'".

Definition yaru_table : list (string * string) :=
  [(""         , "#e95420"); ("-bark"         , "#787859");
   ("-sage"    , "#657b69"); ("-olive"        , "#4b8501");
   ("-viridian", "#03875b"); ("-prussiangreen", "#308280");
   ("-blue"    , "#0073e5"); ("-purple"       , "#7764d8");
   ("-magenta" , "#b34bc3"); ("-red"          , "#da3450")]%string.

(** A name between single quotes, as [gsettings] prints a string. *)
Definition quoted (name : string) : jsstring := str "'" ++ str name ++ str "'".

Definition extension_table : list (string * string) :=
  [("green", "#2ec27e"); ("yellow", "#f5c211"); ("orange", "#e66100");
   ("red"  , "#c01c28"); ("pink"  , "#dc8add"); ("purple", "#813d9c");
   ("brown", "#865e3c")]%string.

(** A history of [usedStrategyIndex] settles once when a value that has been
    stored is the value at every later point. *)
Fixpoint settles_once (history : list (option Z)) : bool :=
  match history with
  | [] => true
  | None :: later => settles_once later
  | Some i :: later =>
      forallb (fun u => match u with Some j => Z.eqb i j | None => false end) later
  end.

End Vocabulary.
Export Vocabulary.

(** ** Hosts of the scenarios *)

Module Scenarios.

Definition command_eq_dec (a b : command) : {a = b} + {a <> b}.
Proof.
  decide equality; [apply (list_eq_dec string_dec) | apply string_dec].
Defined.

Definition is_command (a b : command) : bool :=
  if command_eq_dec a b then true else false.

(** A child that ran and wrote [out] before it left with [code]. *)
Definition exited (code : Z) (out : string) : child_process :=
  {| error_event := None; exitCode := Some code;
     stdout_data := [str out]; stderr_data := [] |}.

(** A child whose program could not be started. *)
Definition not_started : child_process :=
  {| error_event := Some (str "ENOENT"); exitCode := Some (-2)%Z;
     stdout_data := []; stderr_data := [] |}.

Definition portal_reply : string :=
  "   variant       struct {
         double 0.92
         double 0.33
         double 0.13
      }
".

(** The portal answers; the host has no state. *)
Definition portal_host (c : command) (w : unit) : child_process * unit :=
  (if is_command c portal_command then exited 0 portal_reply
   else not_started, w).

(** An Ubuntu desktop without the portal: [dbus-send] leaves with status 1 and
    [gsettings] prints the theme. *)
Definition ubuntu_host (c : command) (w : unit) : child_process * unit :=
  (if is_command c portal_command then exited 1 ""
   else if is_command c ubuntu_command then exited 0 "'Yaru-purple-dark'
"
   else not_started, w).

(** The portal reply has two numbers, [gsettings] cannot be started for the
    theme and the extension key holds an unknown name. *)
Definition bare_host (c : command) (w : unit) : child_process * unit :=
  (if is_command c portal_command then exited 0 "double 0.5 double 0.5"
   else if is_command c ubuntu_command then not_started
   else exited 0 "'unknown'
", w).

(** A host whose state counts the closed children: the portal answers the
    first child and fails afterwards, the theme is always printed. *)
Definition flaky_host (c : command) (w : nat) : child_process * nat :=
  (if is_command c portal_command then
     match w with
     | O => exited 0 portal_reply
     | S _ => exited 1 ""
     end
   else if is_command c ubuntu_command then exited 0 "'Yaru'
"
   else not_started, S w).

(** Two calls, the second made while the first awaits its child; the child of
    the first call closes first. *)
Definition overlapping_calls : list event :=
  [Call; Call; Close 0; Close 1; Close 1].

End Scenarios.
Export Scenarios.

(** ** The events of a child process

    [runCommandHelper] listens to four kinds of events of the child it
    spawns; its handlers share three variables and settle the promise. *)

Module Events.

Inductive child_event : Type :=
| StdoutData (data : jsstring)       (* [child.stdout.on('data', ...)] *)
| StderrData (data : jsstring)       (* [child.stderr.on('data', ...)] *)
| ErrorEvent (err : jsstring)        (* [child.on('error', ...)] *)
| CloseEvent (code : option Z).      (* [child.on('close', ...)], [code]
                                        being [child.exitCode] at that time *)

(** The variables [error], [output] and [errorOutput] of the executor and
    the promise, [None] while it is pending. *)
Record helper : Type := {
  h_error : option jsstring;
  h_output : jsstring;
  h_errorOutput : jsstring;
  h_promise : option (result jsstring)
}.

Definition helper_start : helper :=
  {| h_error := None; h_output := []; h_errorOutput := []; h_promise := None |}.

(** [resolve] and [reject] act on a pending promise only. *)
Definition settle (r : result jsstring) (h : helper) : helper :=
  match h_promise h with
  | None =>
      {| h_error := h_error h; h_output := h_output h;
         h_errorOutput := h_errorOutput h; h_promise := Some r |}
  | Some _ => h
  end.

Definition handle (ev : child_event) (h : helper) : helper :=
  match ev with
  | StdoutData data =>
      {| h_error := h_error h; h_output := h_output h ++ data;
         h_errorOutput := h_errorOutput h; h_promise := h_promise h |}
  | StderrData data =>
      {| h_error := h_error h; h_output := h_output h;
         h_errorOutput := h_errorOutput h ++ data; h_promise := h_promise h |}
  | ErrorEvent err =>
      {| h_error := Some err; h_output := h_output h;
         h_errorOutput := h_errorOutput h; h_promise := h_promise h |}
  | CloseEvent code =>
      match h_error h with
      | Some err => settle (Exn (SpawnError err)) h
      | None =>
          match code with
          | Some 0%Z => settle (Val (h_output h)) h
          | _ => settle (Exn (ExitFailure code (h_errorOutput h))) h
          end
      end
  end.

(** The handlers run on the events in the order they are emitted. *)
Definition deliver (evs : list child_event) (h : helper) : helper :=
  fold_left (fun h ev => handle ev h) evs h.

Definition is_close (ev : child_event) : bool :=
  match ev with CloseEvent _ => true | _ => false end.

Fixpoint stdout_chunks (evs : list child_event) : list jsstring :=
  match evs with
  | [] => []
  | StdoutData data :: evs' => data :: stdout_chunks evs'
  | _ :: evs' => stdout_chunks evs'
  end.

Fixpoint stderr_chunks (evs : list child_event) : list jsstring :=
  match evs with
  | [] => []
  | StderrData data :: evs' => data :: stderr_chunks evs'
  | _ :: evs' => stderr_chunks evs'
  end.

(** The [err] of the last 'error' event. *)
Fixpoint last_error (evs : list child_event) (e : option jsstring) : option jsstring :=
  match evs with
  | [] => e
  | ErrorEvent err :: evs' => last_error evs' (Some err)
  | _ :: evs' => last_error evs' e
  end.

(** The child as it is when it closes with [code] after the events [evs]. *)
Definition child_at_close (evs : list child_event) (code : option Z) : child_process :=
  {| error_event := last_error evs None; exitCode := code;
     stdout_data := stdout_chunks evs; stderr_data := stderr_chunks evs |}.

End Events.
Export Events.

(** ** Vocabulary of the further statements *)

Module MoreVocabulary.

(** A text up to its first comma. *)
Fixpoint before_comma (t : jsstring) : jsstring :=
  match t with
  | [] => []
  | c :: t' => if N.eqb c 44 then [] else c :: before_comma t'
  end.

(** [#rrggbb] with lowercase digits. *)
Definition is_hex_color (c : jsstring) : bool :=
  match c with
  | x :: digits =>
      N.eqb x 35 && Nat.eqb (List.length digits) 6 && forallb is_hex_digit digits
  | [] => false
  end.

(** The three commands of the module. *)
Definition commands : list command :=
  [portal_command; ubuntu_command; extension_command].

(** What a call may settle with: [null], a colour [#rrggbb], or the failure
    of a command. *)
Definition good_result (r : result (option color)) : Prop :=
  match r with
  | Val None => True
  | Val (Some c) => is_hex_color c = true
  | Exn e => e <> TypeError
  end.

(** A program is safe when, whatever its children do, it spawns commands of
    the module only, stores -1 or an index of [strategies] only, and settles
    with a good result, provided the value it loads is such a value. *)
Fixpoint safe (p : prog (option color)) : Prop :=
  match p with
  | Ret a => good_result (Val a)
  | Throw e => e <> TypeError
  | Spawn c k => In c commands /\ forall child, safe (k child)
  | Load k => forall u, valid_index u -> safe (k u)
  | Store v k => (-1 <= v < 3)%Z /\ safe k
  end.

Definition safe_pending (t : pending (option color)) : Prop :=
  match t with
  | Awaiting c k => forall child, safe (k child)
  | Settled r => good_result r
  end.

(** The state holds a value [usedStrategyIndex] takes and commands of the
    module. *)
Definition state_ok {W : Type} (st : state W) : Prop :=
  valid_index (usedStrategyIndex st)
  /\ forall c, In c (spawned st) -> In c commands.

(** The variable is [undefined] or holds [w]. *)
Definition index_ok {W : Type} (w : Z) (st : state W) : Prop :=
  usedStrategyIndex st = None \/ usedStrategyIndex st = Some w.

(** The calls and the state after the events of a schedule. *)
Definition after {W : Type} (close : command -> W -> child_process * W)
           (evs : list event) (cfg : list (pending (option color)) * state W)
  : list (pending (option color)) * state W :=
  fold_left (fun cfg ev => step close ev cfg) evs cfg.

(** [awaits p n]: whatever its children do, the program [p] awaits at most
    [n] of them, one after the other, before it settles. *)
Fixpoint awaits {A : Type} (p : prog A) (n : nat) {struct p} : Prop :=
  match p with
  | Ret _ => True
  | Throw _ => True
  | Spawn c k =>
      match n with
      | O => False
      | S n' => forall child, awaits (k child) n'
      end
  | Load k => forall u, awaits (k u) n
  | Store v k => awaits k n
  end.

(** A pending call after the closes of the next [n] children it awaits, no
    other call running in between. *)
Fixpoint resumes {W A : Type} (close : command -> W -> child_process * W)
         (n : nat) (t : pending A) (st : state W) : pending A * state W :=
  match n with
  | O => (t, st)
  | S n' => let '(t', st') := resume close t st in resumes close n' t' st'
  end.

(** On a host where a command closes as [answer] says: the index the
    discovery stores and the value it returns. *)
Definition first_answer (answer : command -> child_process) : Z * option color :=
  match probe xdgDesktopPortal_color (answer portal_command),
        probe ubuntu_color (answer ubuntu_command),
        probe gnomeCustomAccentColorExtension_color (answer extension_command) with
  | Val (Some c), _, _ => (0%Z, Some c)
  | _, Val (Some c), _ => (1%Z, Some c)
  | _, _, Val (Some c) => (2%Z, Some c)
  | _, _, _ => ((-1)%Z, None)
  end.

(** [agrees answer w r p]: with children that close as [answer] says and a
    variable that is [undefined] or [w], the program [p] stores nothing but
    [w] and returns [r]. *)
Fixpoint agrees (answer : command -> child_process) (w : Z) (r : option color)
         (p : prog (option color)) : Prop :=
  match p with
  | Ret a => a = r
  | Throw _ => False
  | Spawn c k => agrees answer w r (k (answer c))
  | Load k => agrees answer w r (k None) /\ agrees answer w r (k (Some w))
  | Store v k => v = w /\ agrees answer w r k
  end.

Definition agrees_pending (answer : command -> child_process) (w : Z)
           (r : option color) (t : pending (option color)) : Prop :=
  match t with
  | Awaiting c k => agrees answer w r (k (answer c))
  | Settled x => x = Val r
  end.

End MoreVocabulary.
Export MoreVocabulary.

(** ** The portal reply read by hand

    The tokens of a reply and their values, written without the pattern
    matcher and without [parseFloat]: a scan from left to right. *)

Module PortalReading.

(** The longest prefix of characters that satisfy [p], and what follows. *)
Fixpoint span (p : N -> bool) (s : jsstring) : jsstring * jsstring :=
  match s with
  | c :: s' =>
      if p c then let '(run, rest) := span p s' in (c :: run, rest)
      else ([], s)
  | [] => ([], [])
  end.

(** What follows the word [w] at the head of [s]. *)
Fixpoint after_word (w s : jsstring) : option jsstring :=
  match w, s with
  | [], _ => Some s
  | a :: w', b :: s' => if N.eqb b a then after_word w' s' else None
  | _ :: _, [] => None
  end.

(** A number at the head of [s], with what follows it: digits, as many as
    there are, and then, when a comma or a point with a digit after it comes
    next, that separator and the digits after it, as many as there are. *)
Definition number_at (s : jsstring) : option (jsstring * jsstring) :=
  match span is_digit s with
  | ([], _) => None
  | (int, r) =>
      match r with
      | sep :: r' =>
          if N.eqb sep 44 || N.eqb sep 46 then
            match span is_digit r' with
            | ([], _) => Some (int, r)
            | (frac, r'') => Some (int ++ sep :: frac, r'')
            end
          else Some (int, r)
      | [] => Some (int, r)
      end
  end.

(** A token at the head of [s]: the word [double], white space, a number.
    The result is the text of the number and what follows the token. *)
Definition token_at (s : jsstring) : option (jsstring * jsstring) :=
  match after_word (str "double") s with
  | Some r =>
      match span is_white_space r with
      | ([], _) => None
      | (_, r1) => number_at r1
      end
  | None => None
  end.

(** The numbers of the tokens of [s], from left to right; after a token the
    scan goes on behind it, elsewhere one character further. *)
Fixpoint scan_tokens_from (fuel : nat) (s : jsstring) : list jsstring :=
  match fuel with
  | O => []
  | S fuel' =>
      match token_at s with
      | Some (t, rest) => t :: scan_tokens_from fuel' rest
      | None =>
          match s with
          | [] => []
          | _ :: s' => scan_tokens_from fuel' s'
          end
      end
  end.

Definition scan_tokens (s : jsstring) : list jsstring :=
  scan_tokens_from (S (List.length s)) s.

(** The value the module gives to the number of a token: with a point, the
    Number nearest to the decimal; with a comma, the Number nearest to the
    integer before the comma. *)
Definition token_value (t : jsstring) : number :=
  let '(int, r) := span is_digit t in
  match r with
  | sep :: frac =>
      if N.eqb sep 46 then
        decimal_to_number (digits_to_Z (int ++ frac))
          (- Z.of_nat (List.length frac))
      else decimal_to_number (digits_to_Z int) 0
  | [] => decimal_to_number (digits_to_Z int) 0
  end.

(** The colour of three values in [0, 1]: a byte for each. *)
Definition color_of_values (vs : list number) : option color :=
  match vs with
  | [v1; v2; v3] =>
      if in_unit_range v1 && in_unit_range v2 && in_unit_range v3 then
        Some (str "#" ++ hex_byte (channel v1) ++ hex_byte (channel v2)
                ++ hex_byte (channel v3))
      else None
  | _ => None
  end.

End PortalReading.
Export PortalReading.

(** * Properties *)

(** ** The matcher *)

Section MatcherFacts.
Context {A : Type}.

Lemma match_plus_sound (p : N -> bool) (s : jsstring) :
  forall (i : nat) (k : nat -> jsstring -> option A) (a : A),
    match_plus p i s k = Some a ->
    exists w rest,
      s = w ++ rest /\ w <> [] /\ forallb p w = true /\
      k (i + List.length w)%nat rest = Some a.
Proof.
  induction s as [|x s IH]; intros i k a; cbn [match_plus]; [discriminate|].
  destruct (p x) eqn:Px; [|discriminate].
  destruct (match_plus p (S i) s k) as [b|] eqn:M.
  - intros E; inversion E; subst b.
    destruct (IH _ _ _ M) as (w & rest & -> & _ & F & K).
    exists (x :: w), rest. cbn [forallb List.length app]. rewrite Px, F.
    repeat split; try discriminate.
    rewrite <- K. f_equal. lia.
  - intros K. exists [x], s. cbn [forallb List.length app]. rewrite Px.
    repeat split; try discriminate.
    rewrite <- K. f_equal. lia.
Qed.

(** Whatever the matcher finds is a match of the pattern. *)
Lemma rmatch_sound (r : regex) :
  forall (i : nat) (s : jsstring) (c : captures)
         (k : nat -> jsstring -> captures -> option A) (a : A),
    rmatch r i s c k = Some a ->
    exists w rest c',
      s = w ++ rest /\ denote r i w rest c c' /\
      k (i + List.length w)%nat rest c' = Some a.
Proof.
  induction r as [x|p|p|r1 IH1 r2 IH2|r1 IH1 r2 IH2|r1 IH1|n r1 IH1| | |];
    intros i s c k a; cbn [rmatch denote].
  - destruct s as [|y s]; [discriminate|].
    destruct (N.eqb_spec y x); [subst y|discriminate].
    intros K. exists [x], s, c. cbn [List.length app].
    replace (i + 1)%nat with (S i) by lia. auto.
  - destruct s as [|y s]; [discriminate|].
    destruct (p y) eqn:Py; [|discriminate].
    intros K. exists [y], s, c. cbn [List.length app].
    replace (i + 1)%nat with (S i) by lia. eauto 6.
  - intros M. destruct (match_plus_sound _ _ _ _ M) as (w & rest & -> & N0 & F & K).
    exists w, rest, c. auto.
  - intros M.
    destruct (IH1 _ _ _ _ _ M) as (w1 & rest1 & c1 & -> & D1 & M2).
    destruct (IH2 _ _ _ _ _ M2) as (w2 & rest & c2 & -> & D2 & K).
    exists (w1 ++ w2), rest, c2. rewrite <- app_assoc. split; [reflexivity|].
    split; [exists w1, w2, c1; auto|].
    rewrite length_app, Nat.add_assoc. exact K.
  - destruct (rmatch r1 i s c k) as [b|] eqn:M1.
    + intros E; inversion E; subst b.
      destruct (IH1 _ _ _ _ _ M1) as (w & rest & c' & -> & D & K).
      exists w, rest, c'. auto.
    + intros M2.
      destruct (IH2 _ _ _ _ _ M2) as (w & rest & c' & -> & D & K).
      exists w, rest, c'. auto.
  - destruct (rmatch r1 i s c _) as [b|] eqn:M1.
    + intros E; inversion E; subst b.
      destruct (IH1 _ _ _ _ _ M1) as (w & rest & c' & -> & D & K).
      destruct (Nat.eqb_spec (i + List.length w) i) as [Z|NZ]; [discriminate|].
      exists w, rest, c'. split; [reflexivity|]. split; [|exact K].
      right. split; [|exact D]. intros ->. cbn in NZ. lia.
    + intros K. exists [], s, c. cbn [List.length app].
      rewrite Nat.add_0_r. auto.
  - intros M.
    destruct (IH1 _ _ _ _ _ M) as (w & rest & c' & -> & D & K).
    replace (i + List.length w - i)%nat with (List.length w + 0)%nat in K by lia.
    rewrite firstn_app_2 in K. cbn [firstn] in K. rewrite app_nil_r in K.
    exists w, rest, (set_capture n w c'). eauto.
  - destruct (Nat.eqb_spec i 0); [|discriminate].
    intros K. exists [], s, c. cbn [List.length app]. rewrite Nat.add_0_r. auto.
  - destruct s as [|y s]; [|discriminate].
    intros K. exists [], [], c. cbn [List.length app]. rewrite Nat.add_0_r. auto.
  - intros K. exists [], s, c. cbn [List.length app]. rewrite Nat.add_0_r. auto.
Qed.

End MatcherFacts.

Lemma match_at_sound (r : regex) (i : nat) (s : jsstring) (e : nat) (m : captures) :
  match_at r i s = Some (e, m) ->
  exists w rest, s = w ++ rest /\ denote r i w rest no_captures m.
Proof.
  unfold match_at. intros M.
  destruct (rmatch_sound _ _ _ _ _ M) as (w & rest & c' & -> & D & K).
  inversion K; subst. eauto.
Qed.

(** A literal word matches itself only. *)
Lemma denote_word (cs : jsstring) :
  forall i w rest c c', denote (word cs) i w rest c c' -> w = cs /\ c' = c.
Proof.
  induction cs as [|x cs IH]; intros i w rest c c'; cbn [word].
  - cbn [denote]. auto.
  - destruct cs as [|y cs].
    + cbn [denote]. auto.
    + cbn [denote]. intros (w1 & w2 & c1 & -> & (-> & ->) & D).
      destruct (IH _ _ _ _ _ D) as (-> & ->). auto.
Qed.

(** An alternation of words matches one of them. *)
Lemma denote_alts_lit (names : list string) :
  forall i w rest c c',
    denote (alts (map lit names)) i w rest c c' ->
    exists name, In name names /\ w = str name /\ c' = c.
Proof.
  induction names as [|n names IH]; intros i w rest c c'; cbn [map alts].
  - cbn [denote]. intros (x & _ & F & _). discriminate.
  - destruct names as [|n' names].
    + cbn [map alts]. intros D. apply denote_word in D. destruct D as (-> & ->).
      exists n. cbn. auto.
    + cbn [map alts denote] in *. intros [D|D].
      * apply denote_word in D. destruct D as (-> & ->). exists n. cbn. auto.
      * destruct (IH _ _ _ _ _ D) as (name & I & -> & ->).
        exists name. split; [right; exact I|auto].
Qed.

(** A pattern that begins with [^] matches at index 0 or not at all. *)
Lemma jsmatch_anchored (r : regex) (s : jsstring) (m : captures) :
  jsmatch (Cat Bol r) s = Some m ->
  exists e, match_at (Cat Bol r) 0 s = Some (e, m).
Proof.
  assert (F : forall s i, exec_from (Cat Bol r) (S i) s = None).
  { clear. induction s as [|x s IH]; intros i; cbn [exec_from]; unfold match_at;
      cbn [rmatch Nat.eqb]; auto. }
  unfold jsmatch. destruct s as [|x s]; cbn [exec_from].
  - destruct (match_at (Cat Bol r) 0 []) as [[e c]|]; [|discriminate].
    intros E; inversion E; eauto.
  - destruct (match_at (Cat Bol r) 0 (x :: s)) as [[e c]|].
    + intros E; inversion E; eauto.
    + rewrite F. discriminate.
Qed.

(** ** Rounding *)

Section Rounding.
Local Open Scope Z_scope.

Lemma iter_pos_nat {A : Type} (f : A -> A) (p : positive) (x : A) :
  iter_pos f p x = Nat.iter (Pos.to_nat p) f x.
Proof.
  revert x. induction p as [p IH|p IH|]; intros x; cbn [iter_pos].
  - rewrite !IH, Pos2Nat.inj_xI.
    replace (S (2 * Pos.to_nat p)) with (Pos.to_nat p + (Pos.to_nat p + 1))%nat by lia.
    rewrite !Nat.iter_add. reflexivity.
  - rewrite !IH, Pos2Nat.inj_xO.
    replace (2 * Pos.to_nat p)%nat with (Pos.to_nat p + Pos.to_nat p)%nat by lia.
    rewrite Nat.iter_add. reflexivity.
  - reflexivity.
Qed.

Lemma shr_1_m (mrs : shr_record) :
  0 <= shr_m mrs -> shr_m (shr_1 mrs) = shr_m mrs / 2.
Proof.
  destruct mrs as [m r s].
  destruct m as [|[p|p|]|p]; cbn [shr_m shr_1]; intros H;
    try lia; try reflexivity.
  - rewrite Pos2Z.inj_xI. apply Z.div_unique with 1; lia.
  - rewrite Pos2Z.inj_xO. apply Z.div_unique with 0; lia.
Qed.

Lemma shr_1_inexact (mrs : shr_record) :
  0 <= shr_m mrs ->
  inexact (shr_1 mrs) = true -> shr_m mrs mod 2 <> 0 \/ inexact mrs = true.
Proof.
  destruct mrs as [m r s]. unfold inexact.
  destruct m as [|[p|p|]|p]; cbn [shr_m shr_r shr_s shr_1 orb]; intros H;
    try lia; auto.
  - intros _. left. rewrite Pos2Z.inj_xI.
    replace (2 * Z.pos p + 1) with (1 + Z.pos p * 2) by lia.
    rewrite Z.mod_add by lia. discriminate.
  - intros _. left. discriminate.
Qed.

Lemma shr_iter (n : nat) (mrs : shr_record) :
  0 <= shr_m mrs ->
  shr_m (Nat.iter n shr_1 mrs) = shr_m mrs / 2 ^ Z.of_nat n
  /\ (inexact (Nat.iter n shr_1 mrs) = true ->
      shr_m mrs mod 2 ^ Z.of_nat n <> 0 \/ inexact mrs = true).
Proof.
  intros H. induction n as [|n [IHm IHi]].
  - change (Nat.iter 0 shr_1 mrs) with mrs.
    change (2 ^ Z.of_nat 0) with 1. rewrite Z.div_1_r. auto.
  - rewrite Nat.iter_succ.
    assert (P : 0 <= shr_m (Nat.iter n shr_1 mrs)).
    { rewrite IHm. apply Z_div_nonneg_nonneg; [lia|apply Z.pow_nonneg; lia]. }
    rewrite Nat2Z.inj_succ, Z.pow_succ_r by lia. split.
    + rewrite shr_1_m, IHm by exact P.
      rewrite Z.div_div by lia. f_equal. lia.
    + intros I. destruct (shr_1_inexact _ P I) as [O|I'].
      * left. rewrite IHm in O. intros Q. apply O.
        apply Z.mod_divide in Q; [|lia]. destruct Q as [q Q]. rewrite Q.
        replace (q * (2 * 2 ^ Z.of_nat n)) with (q * 2 * 2 ^ Z.of_nat n) by lia.
        rewrite Z.div_mul by lia. rewrite Z.mul_comm.
        replace (2 * q) with (0 + q * 2) by lia. rewrite Z.mod_add by lia.
        reflexivity.
      * destruct (IHi I') as [O|I'']; [|auto]. left. intros Q. apply O.
        apply Z.mod_divide in Q; [|lia]. destruct Q as [q Q]. rewrite Q.
        replace (q * (2 * 2 ^ Z.of_nat n)) with (q * 2 * 2 ^ Z.of_nat n) by lia.
        apply Z.mod_mul. lia.
Qed.

Lemma digits2_pos_size (p : positive) : digits2_pos p = Pos.size p.
Proof. induction p; cbn [digits2_pos Pos.size]; congruence. Qed.

Lemma Zdigits2_log2 (m : Z) : 0 < m -> Zdigits2 m = Z.log2 m + 1.
Proof.
  destruct m as [|p|p]; try lia. intros _. cbn [Zdigits2].
  rewrite digits2_pos_size.
  destruct p as [p|p|]; cbn [Pos.size Z.log2]; lia.
Qed.

(** A natural number below [2^k] has at most [k] binary digits. *)
Lemma Zdigits2_le (m k : Z) : 0 <= m -> 0 <= k -> m < 2 ^ k -> Zdigits2 m <= k.
Proof.
  intros H K L. destruct (Z.eq_dec m 0) as [->|N]; [cbn; lia|].
  rewrite Zdigits2_log2 by lia.
  assert (Z.log2 m < k) by (apply Z.log2_lt_pow2; lia). lia.
Qed.

Lemma Zdigits2_gt (m : Z) : 0 <= m -> m < 2 ^ Zdigits2 m.
Proof.
  intros H. destruct (Z.eq_dec m 0) as [->|N]; [cbn; lia|].
  rewrite Zdigits2_log2 by lia. apply Z.log2_spec. lia.
Qed.

Lemma div_pow2_nonneg (m n : Z) : 0 <= m -> 0 <= m / 2 ^ n.
Proof. intros H. apply Z_div_nonneg_nonneg; [lia|apply Z.pow_nonneg; lia]. Qed.

Lemma shr_spec (mrs : shr_record) (e n : Z) :
  0 <= shr_m mrs ->
  shr_m (fst (shr mrs e n)) = (if 0 <? n then shr_m mrs / 2 ^ n else shr_m mrs)
  /\ snd (shr mrs e n) = (if 0 <? n then e + n else e)
  /\ (inexact (fst (shr mrs e n)) = true ->
      (0 < n /\ shr_m mrs mod 2 ^ n <> 0) \/ inexact mrs = true).
Proof.
  intros H. destruct n as [|p|p]; cbn [shr fst snd Z.ltb Z.compare]; auto.
  rewrite iter_pos_nat.
  destruct (shr_iter (Pos.to_nat p) mrs H) as [Hm Hi].
  rewrite positive_nat_Z in *. split; [exact Hm|]. split; [reflexivity|].
  intros I. destruct (Hi I); auto. left. split; [lia|assumption].
Qed.

Lemma round_nearest_even_bounds (m : Z) (l : location) :
  m <= round_nearest_even m l <= m + 1
  /\ (l = loc_Exact -> round_nearest_even m l = m).
Proof.
  split; [|intros ->; reflexivity].
  destruct l as [|[| |]]; cbn [round_nearest_even]; try lia.
  destruct (Z.even m); lia.
Qed.

Lemma loc_of_shr_record_exact (mrs : shr_record) :
  inexact mrs = false -> loc_of_shr_record mrs = loc_Exact.
Proof. destruct mrs as [m [|] [|]]; cbn; congruence. Qed.

Lemma inexact_of_exact (m : Z) : inexact (shr_record_of_loc m loc_Exact) = false.
Proof. reflexivity. Qed.

Lemma shr_record_of_loc_m (m : Z) (l : location) : shr_m (shr_record_of_loc m l) = m.
Proof. destruct l as [|[| |]]; reflexivity. Qed.

Lemma binary_round_aux_rounded (M E : Z) (l : location) :
  0 <= M -> rounded (binary_round_aux prec emax false M E l).
Proof.
  intros H. unfold binary_round_aux.
  destruct (shr_fexp prec emax M E l) as [mrs' e'] eqn:S1.
  assert (P1 : 0 <= shr_m mrs').
  { unfold shr_fexp in S1.
    destruct (shr_spec (shr_record_of_loc M l) E
                (fexp prec emax (Zdigits2 M + E) - E)) as (Hm & _).
    { rewrite shr_record_of_loc_m; exact H. }
    rewrite S1, shr_record_of_loc_m in Hm. cbn [fst] in Hm. rewrite Hm.
    destruct (0 <? _); [apply div_pow2_nonneg; lia|exact H]. }
  set (m1 := round_nearest_even (shr_m mrs') (loc_of_shr_record mrs')).
  assert (P2 : 0 <= m1).
  { pose proof (round_nearest_even_bounds (shr_m mrs') (loc_of_shr_record mrs')).
    unfold m1. lia. }
  destruct (shr_fexp prec emax m1 e' loc_Exact) as [mrs'' e''] eqn:S2.
  unfold shr_fexp in S2.
  destruct (shr_spec (shr_record_of_loc m1 loc_Exact) e'
              (fexp prec emax (Zdigits2 m1 + e') - e')) as (Hm & _).
  { exact P2. }
  rewrite S2 in Hm. cbn [fst shr_record_of_loc shr_m] in Hm.
  pose proof (Zdigits2_gt P2) as G.
  assert (F : Zdigits2 m1 + e' - prec <= fexp prec emax (Zdigits2 m1 + e')).
  { unfold fexp. lia. }
  remember (fexp prec emax (Zdigits2 m1 + e') - e') as n2 eqn:En2.
  assert (B : shr_m mrs'' < 2 ^ prec).
  { rewrite Hm. destruct (Z.ltb_spec 0 n2) as [L|L].
    - apply Z.div_lt_upper_bound; [apply Z.pow_pos_nonneg; lia|].
      rewrite <- Z.pow_add_r by (unfold prec; lia).
      eapply Z.lt_le_trans; [exact G|].
      apply Z.pow_le_mono_r; lia.
    - eapply Z.lt_le_trans; [exact G|].
      apply Z.pow_le_mono_r; unfold prec in *; lia. }
  destruct (shr_m mrs'') as [|m|m] eqn:Em; cbn [rounded]; auto.
  - destruct (e'' <=? emax - prec); cbn [rounded]; auto. split; [reflexivity|].
    change (Z.pos (digits2_pos m)) with (Zdigits2 (Z.pos m)).
    apply Zdigits2_le; unfold prec in *; lia.
  - assert (0 <= Z.neg m); [|lia]. rewrite Hm.
    destruct (0 <? n2); [apply div_pow2_nonneg; lia|exact P2].
Qed.

Lemma binary_normalize_rounded (z : Z) :
  0 <= z -> rounded (binary_normalize prec emax z 0 false).
Proof.
  intros H. destruct z as [|p|p]; cbn [binary_normalize rounded]; try lia; auto.
  unfold binary_round. destruct (shl_align _ _ _) as [mz ez].
  apply binary_round_aux_rounded. lia.
Qed.

Lemma decimal_to_number_rounded (m x : Z) :
  0 <= m -> rounded (decimal_to_number m x).
Proof.
  intros H. unfold decimal_to_number.
  destruct m as [|p|p]; [reflexivity| |lia].
  destruct (Z.leb_spec 0 x) as [L|L].
  - apply binary_normalize_rounded.
    apply Z.mul_nonneg_nonneg; [lia|apply Z.pow_nonneg; lia].
  - unfold SFdiv_core_binary.
    set (s := 0 - 0 - _).
    set (m' := match s with Z.pos _ => Z.shiftl (Z.pos p) s | 0 => Z.pos p | Z.neg _ => 0 end).
    assert (P : 0 <= m').
    { unfold m'. destruct s; try lia. apply Z.shiftl_nonneg. lia. }
    pose proof (Z_div_mod m' (10 ^ (- x))) as D.
    assert (T : 10 ^ (- x) > 0) by (apply Z.lt_gt, Z.pow_pos_nonneg; lia).
    specialize (D T).
    destruct (Z.div_eucl m' (10 ^ (- x))) as [q r].
    apply binary_round_aux_rounded.
    destruct D as [D R]. nia.
Qed.

Lemma span_digits_spec (s : jsstring) :
  s = fst (span_digits s) ++ snd (span_digits s)
  /\ forallb is_digit (fst (span_digits s)) = true.
Proof.
  induction s as [|c s [IH1 IH2]]; cbn [span_digits]; [auto|].
  destruct (is_digit c) eqn:D; [|auto].
  destruct (span_digits s) as [ds r]. cbn [fst snd app forallb] in *.
  rewrite D, IH2. split; [congruence|reflexivity].
Qed.

Lemma digit_value_nonneg (c : N) : is_digit c = true -> 0 <= digit_value c <= 9.
Proof.
  unfold is_digit, digit_value. intros H. apply andb_true_iff in H.
  destruct H as [L U]. apply N.leb_le in L, U. lia.
Qed.

Lemma digits_to_Z_nonneg (ds : jsstring) :
  forallb is_digit ds = true -> 0 <= digits_to_Z ds.
Proof.
  unfold digits_to_Z.
  assert (G : forall a, 0 <= a -> forallb is_digit ds = true ->
              0 <= fold_left (fun acc c => 10 * acc + digit_value c) ds a).
  { induction ds as [|c ds IH]; intros a A F; cbn [fold_left]; [exact A|].
    cbn [forallb] in F. apply andb_true_iff in F. destruct F as [Fc F].
    apply IH; [|exact F]. pose proof (digit_value_nonneg c Fc). lia. }
  apply G. lia.
Qed.

Lemma is_digit_not_white_space (c : N) : is_digit c = true -> is_white_space c = false.
Proof.
  intros D. unfold is_digit in D. apply andb_true_iff in D.
  destruct D as [L U]. apply N.leb_le in L, U.
  unfold is_white_space. cbn [existsb].
  repeat match goal with
         | |- context [N.eqb c ?k] => destruct (N.eqb_spec c k); [lia|]
         end.
  reflexivity.
Qed.

(** The value [parseFloat] reads in a text that begins with a digit. *)
Lemma parseFloat_digit_rounded (d : N) (t : jsstring) :
  is_digit d = true -> rounded (parseFloat (d :: t)).
Proof.
  intros D. unfold parseFloat. cbn [trimStart].
  rewrite (is_digit_not_white_space d D).
  pose proof D as D'. unfold is_digit in D'. apply andb_true_iff in D'.
  destruct D' as [L U]. apply N.leb_le in L, U.
  cbn [strip]. destruct (N.eqb_spec d 45); [lia|]. destruct (N.eqb_spec d 43); [lia|].
  unfold parse_unsigned.
  change (str "Infinity") with (73%N :: str "nfinity"). cbn [starts_with].
  destruct (N.eqb_spec 73 d); [lia|]. cbn [andb].
  pose proof (span_digits_spec (d :: t)) as [_ F].
  cbn [span_digits] in *. rewrite D in *.
  destruct (span_digits t) as [ds r1]. cbn [fst] in F.
  destruct (strip 46 r1) as [r2|].
  - pose proof (span_digits_spec r2) as [_ F2].
    destruct (span_digits r2) as [frac r3]. cbn [fst] in F2.
    apply decimal_to_number_rounded, digits_to_Z_nonneg.
    rewrite forallb_app, F, F2. reflexivity.
  - apply decimal_to_number_rounded, digits_to_Z_nonneg, F.
Qed.

(** ** A channel of the portal colour *)

Lemma pow2_split (a b : Z) : 0 <= a -> 0 <= b -> 2 ^ (a + b) = 2 ^ a * 2 ^ b.
Proof. intros. apply Z.pow_add_r; lia. Qed.

Lemma shr_fexp_le (m e : Z) :
  0 <= m -> e <= 0 -> m <= 255 * 2 ^ (- e) ->
  let '(mrs', e') := shr_fexp prec emax m e loc_Exact in
  e' <= 0 /\ 0 <= shr_m mrs' /\ shr_m mrs' <= 255 * 2 ^ (- e')
  /\ round_nearest_even (shr_m mrs') (loc_of_shr_record mrs') <= 255 * 2 ^ (- e').
Proof.
  intros Hm He Hb. unfold shr_fexp.
  assert (Dg : Zdigits2 m <= 8 - e).
  { apply Zdigits2_le; [lia|lia|].
    replace (8 - e) with (8 + - e) by lia.
    rewrite (@pow2_split 8 (- e)) by lia. change (2 ^ 8) with 256.
    assert (0 < 2 ^ (- e)) by (apply Z.pow_pos_nonneg; lia). lia. }
  assert (Fx : fexp prec emax (Zdigits2 m + e) <= -45).
  { unfold fexp, emin, prec, emax. lia. }
  remember (fexp prec emax (Zdigits2 m + e) - e) as n eqn:En.
  destruct (shr_spec (shr_record_of_loc m loc_Exact) e n) as (Sm & Se & Si).
  { exact Hm. }
  destruct (shr (shr_record_of_loc m loc_Exact) e n) as [mrs' e'].
  cbn [fst snd shr_record_of_loc shr_m] in Sm, Se, Si.
  destruct (Z.ltb_spec 0 n) as [L|L].
  - subst e'. assert (E' : e + n <= 0) by lia.
    assert (P : 0 < 2 ^ n) by (apply Z.pow_pos_nonneg; lia).
    assert (Q : 2 ^ (- e) = 2 ^ (- (e + n)) * 2 ^ n).
    { rewrite <- pow2_split by lia. f_equal. lia. }
    set (K := 255 * 2 ^ (- (e + n))) in *.
    assert (B : m <= K * 2 ^ n) by (unfold K; lia).
    assert (Lm : shr_m mrs' <= K).
    { rewrite Sm. apply Z.div_le_upper_bound; lia. }
    split; [exact E'|]. split; [rewrite Sm; apply div_pow2_nonneg; exact Hm|].
    split; [exact Lm|].
    destruct (inexact mrs') eqn:I.
    + destruct (Si eq_refl) as [[_ R]|F]; [|discriminate F].
      pose proof (round_nearest_even_bounds (shr_m mrs') (loc_of_shr_record mrs')) as [Rb _].
      assert (shr_m mrs' < K); [|lia].
      rewrite Sm. apply Z.div_lt_upper_bound; [lia|].
      pose proof (Z.div_mod m (2 ^ n)) as DM.
      pose proof (Z.mod_pos_bound m (2 ^ n) P) as MB.
      destruct (Z.eq_dec m (K * 2 ^ n)) as [Eq|Ne]; [|lia].
      exfalso. apply R. rewrite Eq. apply Z.mod_mul. lia.
    + rewrite (loc_of_shr_record_exact _ I). cbn [round_nearest_even]. exact Lm.
  - subst e'. rewrite Sm.
    assert (I : inexact mrs' = false).
    { destruct (inexact mrs'); [|reflexivity].
      destruct (Si eq_refl) as [[F _]|F]; [lia|discriminate F]. }
    rewrite (loc_of_shr_record_exact _ I). cbn [round_nearest_even]. auto.
Qed.

Lemma binary_round_aux_le (M E : Z) :
  0 <= M -> E <= 0 -> M <= 255 * 2 ^ (- E) ->
  match binary_round_aux prec emax false M E loc_Exact with
  | S754_zero _ => True
  | S754_finite _ m e => e <= 0 /\ Z.pos m <= 255 * 2 ^ (- e)
  | _ => False
  end.
Proof.
  intros Hm He Hb. unfold binary_round_aux.
  pose proof (shr_fexp_le Hm He Hb) as S1.
  destruct (shr_fexp prec emax M E loc_Exact) as [mrs' e'].
  destruct S1 as (E1 & P1 & _ & R1).
  pose proof (round_nearest_even_bounds (shr_m mrs') (loc_of_shr_record mrs')) as [Rb _].
  set (m1 := round_nearest_even (shr_m mrs') (loc_of_shr_record mrs')) in *.
  assert (P2 : 0 <= m1) by lia.
  pose proof (shr_fexp_le P2 E1 R1) as S2.
  destruct (shr_fexp prec emax m1 e' loc_Exact) as [mrs'' e''].
  destruct S2 as (E2 & P3 & B3 & _).
  destruct (shr_m mrs'') as [|m|m]; [exact I| |lia].
  destruct (Z.leb_spec e'' (emax - prec)) as [L|L]; [auto|].
  unfold emax, prec in L. lia.
Qed.
Lemma below_256 (P : Z -> bool) :
  forallb P (map Z.of_nat (seq 0 256)) = true ->
  forall z, 0 <= z <= 255 -> P z = true.
Proof.
  intros F z Hz. rewrite forallb_forall in F. apply F.
  rewrite <- (Z2Nat.id z) by lia. apply in_map, in_seq. lia.
Qed.

Lemma byte_of_integer (z : Z) :
  0 <= z <= 255 -> padStart2 (hex_of_Z z) = hex_byte z.
Proof.
  intros Hz.
  pose proof (@below_256
    (fun z => jsstring_eqb (padStart2 (hex_of_Z z)) (hex_byte z))) as B.
  cbv beta in B. specialize (B ltac:(vm_compute; reflexivity) z Hz).
  unfold jsstring_eqb in B. destruct (list_eq_dec _ _ _); [assumption|discriminate].
Qed.

Lemma byte_of_floor (z : Z) :
  0 <= z <= 255 ->
  padStart2 (Number_toString16
               match z with
               | 0 => S754_zero false
               | Z.pos p => binary_normalize prec emax (Z.pos p) 0 false
               | Z.neg p => binary_normalize prec emax (Z.neg p) 0 false
               end) = hex_byte z
  /\ floor_value match z with
                 | 0 => S754_zero false
                 | Z.pos p => binary_normalize prec emax (Z.pos p) 0 false
                 | Z.neg p => binary_normalize prec emax (Z.neg p) 0 false
                 end = z.
Proof.
  intros Hz.
  pose proof (@below_256
    (fun z =>
       let x := match z with
                | 0 => S754_zero false
                | Z.pos p => binary_normalize prec emax (Z.pos p) 0 false
                | Z.neg p => binary_normalize prec emax (Z.neg p) 0 false
                end in
       jsstring_eqb (padStart2 (Number_toString16 x)) (hex_byte z)
       && Z.eqb (floor_value x) z)) as B.
  cbv beta zeta in B. specialize (B ltac:(vm_compute; reflexivity) z Hz).
  apply andb_true_iff in B. destruct B as [B1 B2].
  unfold jsstring_eqb in B1. destruct (list_eq_dec _ _ _); [|discriminate].
  apply Z.eqb_eq in B2. auto.
Qed.

(** A Number that is not above 1, when it came out of a rounding. *)
Lemma at_most_one (s : bool) (m : positive) (e : Z) :
  rounded (S754_finite s m e) -> num_gt (S754_finite s m e) num_1 = false ->
  s = false /\ e <= -52 /\ Z.pos m <= 2 ^ (- e).
Proof.
  intros [-> D] G. split; [reflexivity|].
  unfold num_gt, SFltb, num_1 in G. cbn [SFcompare] in G.
  destruct (Z.compare_spec (-52) e) as [E|L|L]; [| discriminate G |].
  - subst e. split; [lia|]. change (Pos.compare_cont Eq) with Pos.compare in G.
    change (2 ^ (- -52)) with (Z.pos 4503599627370496).
    destruct (Pos.compare_spec 4503599627370496 m) as [Q|Q|Q];
      [subst m; reflexivity|discriminate G|].
    apply Z.lt_le_incl, Pos2Z.pos_lt_pos, Q.
  - split; [lia|].
    pose proof (@Zdigits2_gt (Z.pos m) ltac:(lia)) as U. cbn [Zdigits2] in U.
    eapply Z.le_trans; [apply Z.lt_le_incl, U|].
    apply Z.pow_le_mono_r; unfold prec in D; lia.
Qed.

Lemma channel_hex_spec (v : number) :
  rounded v -> num_gt v num_1 = false ->
  0 <= channel v <= 255 /\ channel_hex v = hex_byte (channel v).
Proof.
  intros R G. destruct v as [s|s| |s m e]; cbn [rounded] in R.
  - subst s. vm_compute. repeat split; discriminate.
  - subst s. discriminate G.
  - contradiction.
  - destruct (at_most_one R G) as (-> & E & M).
    unfold channel, channel_hex, num_mul, num_255. cbn [SFmul xorb].
    set (K := 8972014882652160%positive).
    assert (B : Z.pos (m * K) <= 255 * 2 ^ (- (e + -45))).
    { rewrite Pos2Z.inj_mul. replace (- (e + -45)) with (45 + - e) by lia.
      rewrite pow2_split by lia. change (Z.pos K) with (255 * 2 ^ 45).
      assert (0 < 2 ^ 45) by reflexivity. nia. }
    pose proof (@binary_round_aux_le (Z.pos (m * K)) (e + -45)
                  ltac:(lia) ltac:(lia) B) as L.
    pose proof (@binary_round_aux_rounded (Z.pos (m * K)) (e + -45) loc_Exact
                  ltac:(lia)) as S.
    destruct (binary_round_aux prec emax false (Z.pos (m * K)) (e + -45) loc_Exact)
      as [s'|s'| |s' mR eR]; try contradiction.
    + cbn [rounded] in S. subst s'. vm_compute. repeat split; discriminate.
    + destruct S as [-> _]. destruct L as [Le Lm].
      assert (P : 0 < 2 ^ (- eR)) by (apply Z.pow_pos_nonneg; lia).
      assert (Hz : 0 <= Z.shiftl (Z.pos mR) eR <= 255).
      { replace eR with (- - eR) by lia. change (Z.shiftl ?a (- ?n)) with (Z.shiftr a n).
        rewrite Z.shiftr_div_pow2 by lia. split.
        - apply Z.div_pos; lia.
        - apply Z.div_le_upper_bound; lia. }
      cbn [floor_value cond_Zopp Math_floor].
      destruct (Z.leb_spec 0 eR) as [Q|Q].
      * assert (eR = 0) by lia. subst eR. cbn [Number_toString16 app floor_value cond_Zopp].
        split; [exact Hz|]. apply byte_of_integer, Hz.
      * change (Z.shiftr (Z.pos mR) (- eR)) with (Z.shiftl (Z.pos mR) (- - eR)).
        replace (- - eR) with eR by lia.
        set (z := Z.shiftl (Z.pos mR) eR) in *.
        destruct (byte_of_floor Hz) as [B1 B2].
        split; [exact Hz|]. exact B1.
Qed.

End Rounding.

(** ** The portal strategy *)

(** Decimal literals as binary64 values: 0.1 is [0x3FB999999999999A], 0.92 is
    [0x3FED70A3D70A3D71]; the least subnormal, a literal just above half of
    it, and an overflow; what [parseFloat] makes of signs, exponents and
    text that is no number. *)
Example parseFloat_values :
  parseFloat (str "0.1") = S754_finite false 7205759403792794 (-56)
  /\ parseFloat (str "0.92") = S754_finite false 8286623314361713 (-53)
  /\ parseFloat (str "1") = num_1
  /\ parseFloat (str "4.9e-324") = S754_finite false 1 (-1074)
  /\ parseFloat (str "2.4703282292062328e-324") = S754_finite false 1 (-1074)
  /\ parseFloat (str "1e-400") = S754_zero false
  /\ parseFloat (str "1.7976931348623159e308") = S754_infinity false
  /\ parseFloat (str "  -.5e1x") = S754_finite true 5629499534213120 (-50)
  /\ parseFloat (str "1,5") = num_1
  /\ parseFloat (str "undefined") = S754_nan.
Proof. repeat split; vm_compute; reflexivity. Qed.

(** The thousand decimals 0.001, 0.002, ..., 1.000 are read as the nearest
    Numbers. *)
Example decimals_are_rounded_to_nearest :
  forallb (fun m => nearest_to_decimal m (-3) (decimal_to_number m (-3)))
    (map Z.of_nat (seq 1 1000)) = true.
Proof. vm_compute. reflexivity. Qed.

(** Rounding in the product: the literal is below 1/255 and the channel is 1;
    0.6 is read as a Number below 0.6 and the channel is still 153. *)
Example channel_values :
  channel (parseFloat (str "0.0039215686274509803")) = 1%Z
  /\ channel (parseFloat (str "0.6")) = 153%Z
  /\ channel_hex (parseFloat (str "0.6")) = str "99"
  /\ channel_hex (parseFloat (str "0.05")) = str "0c"
  /\ channel_hex (parseFloat (str "1")) = str "ff".
Proof. repeat split; vm_compute; reflexivity. Qed.

(** The matches of the pattern: white space is needed after [double], a
    number ends where its digits end, and the search goes on after a match. *)
Example portal_tokens_values :
  portal_tokens (str "double1 double  2.50.5double 1,double 0, 7")
  = [str "2.50"; str "1"; str "0"]
  /\ portal_tokens (str "double -1 double +1 double .5") = [].
Proof. split; vm_compute; reflexivity. Qed.

(** Two or four tokens, or a value out of range, give [null]. *)
Example portal_null_values :
  xdgDesktopPortal_color (str "double 0.5 double 0.5") = None
  /\ xdgDesktopPortal_color (str "double 0 double 0 double 0 double 0") = None
  /\ xdgDesktopPortal_color (str "double 0.5 double 1.5 double 0.5") = None
  /\ xdgDesktopPortal_color (str "double 1 double 0 double 1") = Some (str "#ff00ff").
Proof. repeat split; vm_compute; reflexivity. Qed.

Lemma unsigned_number_digit (t : jsstring) :
  unsigned_number t -> starts_with_digit t.
Proof.
  intros (int & rest & -> & N & F & _).
  destruct int as [|d int]; [contradiction|].
  cbn [forallb] in F. apply andb_true_iff in F. destruct F as [Fd _].
  exists d, (int ++ rest). auto.
Qed.

Lemma portal_match_shape (i : nat) (s : jsstring) (e : nat) (m : captures) :
  match_at portal_re i s = Some (e, m) -> unsigned_number (group_text m 1).
Proof.
  intros M. apply match_at_sound in M. destruct M as (w & rest & -> & D).
  unfold portal_re in D. cbn [denote] in D.
  destruct D as (w1 & wa & c1 & -> & D1 & D).
  apply denote_word in D1. destruct D1 as (-> & ->).
  destruct D as (w2 & wb & c2 & -> & (_ & _ & ->) & D).
  destruct D as (c3 & D & ->).
  destruct D as (w3 & w4 & c4 & -> & (N3 & F3 & ->) & D).
  unfold group_text, set_capture. cbn [Nat.eqb].
  exists w3, w4. repeat split; auto.
  destruct D as [(-> & _)|(_ & w5 & w6 & c5 & -> & (x & -> & Px & _) & (N6 & F6 & _))].
  - left. reflexivity.
  - right. exists x, w6. auto.
Qed.

Lemma matchAll_from_Forall (r : regex) (P : captures -> Prop) :
  (forall i s e m, match_at r i s = Some (e, m) -> P m) ->
  forall s i skip, Forall P (matchAll_from r i s skip).
Proof.
  intros H. induction s as [|x s IH]; intros i skip.
  - destruct skip; cbn [matchAll_from]; [|constructor].
    destruct (match_at r i []) as [[e c]|] eqn:M; constructor; eauto.
  - destruct skip; cbn [matchAll_from]; [|apply IH].
    destruct (match_at r i (x :: s)) as [[e c]|] eqn:M; [|apply IH].
    constructor; eauto.
Qed.

Lemma portal_tokens_shape (output : jsstring) :
  Forall unsigned_number (portal_tokens output).
Proof.
  unfold portal_tokens, matchAll. apply Forall_map.
  apply matchAll_from_Forall. intros i s e m. apply portal_match_shape.
Qed.

Lemma token_value_rounded (t : jsstring) :
  unsigned_number t -> rounded (parseFloat t).
Proof.
  intros U. apply unsigned_number_digit in U.
  destruct U as (d & rest & -> & D). apply parseFloat_digit_rounded, D.
Qed.

Lemma SFltb_finite (m1 m2 : positive) (e1 e2 : Z) :
  SFltb (S754_finite false m1 e1) (S754_finite false m2 e2)
  = negb (SFleb (S754_finite false m2 e2) (S754_finite false m1 e1)).
Proof.
  unfold SFltb, SFleb. cbn [SFcompare].
  rewrite (Z.compare_antisym e1 e2).
  destruct (e1 ?= e2)%Z; cbn [CompOpp]; try reflexivity.
  change (Pos.compare_cont Eq) with Pos.compare.
  rewrite (Pos.compare_antisym m1 m2).
  destruct (m1 ?= m2)%positive; reflexivity.
Qed.

(** On a rounded value the test of the loop is the test of the range. *)
Lemma range_test (v : number) :
  rounded v ->
  num_lt v num_0 = false
  /\ num_lt v num_0 || num_gt v num_1 = negb (in_unit_range v).
Proof.
  intros R. destruct v as [s|s| |s m e]; cbn [rounded] in R;
    try contradiction; try (subst s; split; reflexivity).
  destruct R as [-> _]. split; [reflexivity|].
  unfold in_unit_range, num_lt, num_gt, num_le, num_0, num_1.
  rewrite SFltb_finite. reflexivity.
Qed.

(** The strategy, as a function of the tokens of its output. *)
Lemma portal_color_tokens (output : jsstring) :
  xdgDesktopPortal_color output = portal_color_of (portal_tokens output).
Proof.
  pose proof (portal_tokens_shape output) as S.
  unfold xdgDesktopPortal_color, portal_tokens in *.
  destruct (matchAll portal_re (trim output)) as [|m1 [|m2 [|m3 [|m4 ms]]]];
    try reflexivity.
  cbn [map] in *. cbn [List.length Nat.eqb negb portal_loop portal_color_of].
  inversion S as [|? ? S1 S']; subst. inversion S' as [|? ? S2 S'']; subst.
  inversion S'' as [|? ? S3 _]; subst.
  apply token_value_rounded in S1, S2, S3.
  destruct (@range_test _ S1) as [_ ->]. destruct (@range_test _ S2) as [_ ->].
  destruct (@range_test _ S3) as [_ ->].
  destruct (in_unit_range (parseFloat (group_text m1 1))) eqn:I1; [|reflexivity].
  destruct (in_unit_range (parseFloat (group_text m2 1))) eqn:I2; [|reflexivity].
  destruct (in_unit_range (parseFloat (group_text m3 1))) eqn:I3; [|reflexivity].
  cbn [negb andb].
  assert (G : forall v, rounded v -> in_unit_range v = true -> num_gt v num_1 = false).
  { intros v R I. destruct (@range_test v R) as [_ T]. rewrite I in T.
    apply orb_false_iff in T. apply T. }
  destruct (@channel_hex_spec _ S1 (G _ S1 I1)) as [_ ->].
  destruct (@channel_hex_spec _ S2 (G _ S2 I2)) as [_ ->].
  destruct (@channel_hex_spec _ S3 (G _ S3 I3)) as [_ ->].
  rewrite <- !app_assoc. reflexivity.
Qed.
Lemma hex_byte_digits (z : Z) :
  (0 <= z <= 255)%Z -> forallb is_hex_digit (hex_byte z) = true.
Proof.
  intros Hz.
  apply (@below_256 (fun z => forallb is_hex_digit (hex_byte z))); [|exact Hz].
  vm_compute. reflexivity.
Qed.

Lemma in_range_channel (t : jsstring) :
  unsigned_number t -> in_unit_range (parseFloat t) = true ->
  (0 <= channel (parseFloat t) <= 255)%Z.
Proof.
  intros S I. apply token_value_rounded in S.
  destruct (@range_test _ S) as [_ T]. rewrite I in T.
  apply orb_false_iff in T. destruct T as [_ G].
  apply (@channel_hex_spec _ S G).
Qed.

(** C4 fails on the code, by the defect of C5: the token [1,5] stands for
    1.5, which is above 1, but [parseFloat] stops at the comma and the loop
    tests the value 1: the reply with three tokens whose first is [1,5] gives
    the colour [#ff0000], channel [ff] for that token, where the same reply
    written with a point gives [null]. *)
Theorem comma_value_escapes_range_test :
  portal_tokens (str "double 1,5 double 0 double 0")
    = [str "1,5"; str "0"; str "0"]
  /\ parseFloat (str "1,5") = num_1
  /\ in_unit_range (parseFloat (str "1,5")) = true
  /\ in_unit_range (parseFloat (str "1.5")) = false
  /\ xdgDesktopPortal_color (str "double 1,5 double 0 double 0")
     = Some (str "#ff0000")
  /\ xdgDesktopPortal_color (str "double 1.5 double 0 double 0") = None.
Proof. repeat split; vm_compute; reflexivity. Qed.

Lemma span_digits_app (int rest : jsstring) :
  forallb is_digit int = true ->
  match rest with [] => True | c :: _ => is_digit c = false end ->
  span_digits (int ++ rest) = (int, rest).
Proof.
  intros F R. induction int as [|d int IH]; cbn [app].
  - destruct rest as [|c r]; [reflexivity|]. cbn [span_digits]. rewrite R. reflexivity.
  - cbn [forallb] in F. apply andb_true_iff in F. destruct F as [Fd F].
    cbn [span_digits]. rewrite Fd, (IH F). reflexivity.
Qed.

(** What follows a comma is not read: the text has the value of its digits
    before the comma. *)
Lemma parseFloat_comma (d : N) (int frac : jsstring) :
  forallb is_digit (d :: int) = true ->
  parseFloat ((d :: int) ++ 44%N :: frac) = parseFloat (d :: int).
Proof.
  intros F. pose proof F as F'. cbn [forallb] in F'.
  apply andb_true_iff in F'. destruct F' as [D _].
  unfold parseFloat. cbn [app trimStart].
  rewrite (is_digit_not_white_space d D).
  pose proof D as D'. unfold is_digit in D'. apply andb_true_iff in D'.
  destruct D' as [L U]. apply N.leb_le in L, U.
  cbn [strip]. destruct (N.eqb_spec d 45); [lia|]. destruct (N.eqb_spec d 43); [lia|].
  unfold parse_unsigned.
  change (str "Infinity") with (73%N :: str "nfinity"). cbn [starts_with].
  destruct (N.eqb_spec 73 d); [lia|]. cbn [andb].
  change (d :: int ++ 44%N :: frac) with ((d :: int) ++ 44%N :: frac).
  rewrite (span_digits_app (d :: int) (44%N :: frac) F) by reflexivity.
  pose proof (span_digits_app (d :: int) [] F I) as E.
  rewrite app_nil_r in E. rewrite E.
  reflexivity.
Qed.

(** C5 fails on the code: [parseFloat] stops at a comma, so the value of the
    token [0,92] is 0 and not 0.92, and a reply written with commas gives
    another colour than the same reply written with points. *)
Theorem comma_fraction_is_dropped :
  portal_tokens (str "double 0,92 double 0,33 double 0,13")
    = [str "0,92"; str "0,33"; str "0,13"]
  /\ parseFloat (str "0,92") = S754_zero false
  /\ parseFloat (str "0.92") = S754_finite false 8286623314361713 (-53)
  /\ xdgDesktopPortal_color (str "double 0,92 double 0,33 double 0,13")
     = Some (str "#000000")
  /\ xdgDesktopPortal_color (str "double 0.92 double 0.33 double 0.13")
     = Some (str "#ea5421").
Proof. repeat split; vm_compute; reflexivity. Qed.

(** C6 as stated fails: the reply of the scenario gives [#ea5421], the 84 of
    the green channel being 54 in base 16. *)
Lemma portal_reply_is_not_ea5521 :
  portal_tokens (str portal_reply) = [str "0.92"; str "0.33"; str "0.13"]
  /\ xdgDesktopPortal_color (str portal_reply) = Some (str "#ea5421")
  /\ xdgDesktopPortal_color (str portal_reply) <> Some (str "#ea5521").
Proof.
  split; [vm_compute; reflexivity|]. split; [vm_compute; reflexivity|].
  vm_compute. discriminate.
Qed.

(** C6, amended: a reply whose tokens are 0.92, 0.33 and 0.13 gives
    [#ea5421]. *)
Theorem portal_scenario_color (output : jsstring) :
  portal_tokens output = [str "0.92"; str "0.33"; str "0.13"] ->
  xdgDesktopPortal_color output = Some (str "#ea5421").
Proof.
  intros T. rewrite portal_color_tokens, T. vm_compute. reflexivity.
Qed.

Lemma portal_scenario_color_witness :
  xdgDesktopPortal_color (str portal_reply) = Some (str "#ea5421").
Proof.
  apply portal_scenario_color. vm_compute. reflexivity.
Defined.

(** C10: every token is an unsigned number (digits, then possibly a comma
    or a point and digits), so no value read from a token is below 0; when
    the output holds three tokens and the strategy returns [null], one of the
    three values is above 1. *)
Theorem portal_values_not_negative (output : jsstring) :
  (forall t, In t (portal_tokens output) -> unsigned_number t)
  /\ (forall t, In t (portal_tokens output) -> num_lt (parseFloat t) num_0 = false)
  /\ (forall t1 t2 t3,
        portal_tokens output = [t1; t2; t3] ->
        xdgDesktopPortal_color output = None ->
        exists t, In t [t1; t2; t3] /\ num_gt (parseFloat t) num_1 = true).
Proof.
  pose proof (portal_tokens_shape output) as S. rewrite Forall_forall in S.
  split; [exact S|]. split.
  - intros t I. apply (@range_test _ (@token_value_rounded t (S t I))).
  - intros t1 t2 t3 T. rewrite portal_color_tokens, T. cbn [portal_color_of].
    assert (G : forall t, In t [t1; t2; t3] ->
                in_unit_range (parseFloat t) = false ->
                exists t', In t' [t1; t2; t3] /\ num_gt (parseFloat t') num_1 = true).
    { intros t I F. exists t. split; [exact I|].
      rewrite <- T in I.
      destruct (@range_test _ (@token_value_rounded t (S t I))) as [N R].
      rewrite N, F in R. exact R. }
    destruct (in_unit_range (parseFloat t1)) eqn:I1;
      [|intros _; apply (G t1); [cbn; auto|exact I1]].
    destruct (in_unit_range (parseFloat t2)) eqn:I2;
      [|intros _; apply (G t2); [cbn; auto|exact I2]].
    destruct (in_unit_range (parseFloat t3)) eqn:I3;
      [|intros _; apply (G t3); [cbn; auto|exact I3]].
    discriminate.
Qed.

Ltac in_list := cbn [In]; repeat (first [left; reflexivity | right]).

(** Find the entry of a table that fits the goal. *)
Ltac find_entry tbl tac :=
  lazymatch tbl with
  | (?s, ?h) :: ?rest => first [ tac s h | find_entry rest tac ]
  end.

(** ** The theme name and the extension strategies *)

Lemma ubuntu_match_inv (s : jsstring) (m : captures) :
  jsmatch ubuntu_re s = Some m ->
  exists (variant : option string) (dark : bool),
    match variant with Some v => In v yaru_variants | None => True end /\
    s = yaru_theme (match variant with Some v => String "-" v | None => "" end) dark /\
    m = match variant with
        | Some v => set_capture 1 (str v) no_captures
        | None => no_captures
        end.
Proof.
  intros J. apply jsmatch_anchored in J. destruct J as [e M].
  apply match_at_sound in M. destruct M as (w & rest & -> & D).
  cbn [denote] in D.
  destruct D as (w0 & wa & c0 & -> & (-> & _ & ->) & D).
  destruct D as (w1 & wb & c1 & -> & D1 & D).
  apply denote_word in D1. destruct D1 as (-> & ->).
  destruct D as (w2 & wc & c2 & -> & D2 & D).
  destruct D as (w3 & wd & c3 & -> & D3 & D).
  destruct D as (w4 & w5 & c4 & -> & (-> & ->) & (-> & -> & ->)).
  assert (V : exists variant : option string,
             match variant with Some v => In v yaru_variants | None => True end /\
             w2 = str (match variant with Some v => String "-" v | None => "" end) /\
             c2 = match variant with
                  | Some v => set_capture 1 (str v) no_captures
                  | None => no_captures
                  end).
  { destruct D2 as [(-> & ->)|(_ & wx & wy & cx & -> & (-> & ->) & cy & Dv & ->)].
    - exists None. auto.
    - apply denote_alts_lit in Dv. destruct Dv as (v & I & -> & ->).
      exists (Some v). auto. }
  assert (K : exists dark : bool,
             w3 = (if dark then str "-dark" else []) /\ c3 = c2).
  { destruct D3 as [(-> & ->)|(_ & Dd)].
    - exists false. auto.
    - apply denote_word in Dd. destruct Dd as (-> & ->). exists true. auto. }
  destruct K as (dark & -> & ->). destruct V as (variant & I & -> & ->).
  exists variant, dark. split; [exact I|]. split; [|reflexivity].
  unfold yaru_theme. rewrite !app_nil_r. reflexivity.
Qed.

Lemma extension_match_inv (s : jsstring) (m : captures) :
  jsmatch extension_re s = Some m ->
  exists name : string,
    In name extension_names /\ s = quoted name /\
    m = set_capture 1 (str name) no_captures.
Proof.
  intros J. apply jsmatch_anchored in J. destruct J as [e M].
  apply match_at_sound in M. destruct M as (w & rest & -> & D).
  cbn [denote] in D.
  destruct D as (w0 & wa & c0 & -> & (-> & _ & ->) & D).
  destruct D as (w1 & wb & c1 & -> & (-> & ->) & D).
  destruct D as (w2 & wc & c2 & -> & (cv & Dv & ->) & D).
  destruct D as (w3 & w4 & c3 & -> & (-> & ->) & (-> & -> & ->)).
  apply denote_alts_lit in Dv. destruct Dv as (name & I & -> & ->).
  exists name. split; [exact I|]. split; [|reflexivity].
  unfold quoted. rewrite !app_nil_r. reflexivity.
Qed.

(** C7: the theme name strategy returns a colour exactly when the trimmed
    output is ['Yaru], an optional dash and variant out of the nine, an optional
    [-dark], and a quote; the colour is the one of the table, [#e95420] without
    a variant; ['Yaru-purple-dark'] gives [#7764d8] and ['Yaru'] gives
    [#e95420]. *)
Theorem ubuntu_color_spec :
  (forall (output : jsstring) (c : color),
     ubuntu_color output = Some c <->
     exists suffix hex dark,
       In (suffix, hex) yaru_table
       /\ trim output = yaru_theme suffix dark /\ c = str hex)
  /\ ubuntu_color (str "'Yaru-purple-dark'") = Some (str "#7764d8")
  /\ ubuntu_color (str "'Yaru'") = Some (str "#e95420").
Proof.
  split; [|split; vm_compute; reflexivity].
  intros output c. split.
  - unfold ubuntu_color. destruct (jsmatch ubuntu_re (trim output)) as [m|] eqn:J;
      [|discriminate].
    apply ubuntu_match_inv in J. destruct J as (variant & dark & I & T & ->).
    intros E.
    destruct variant as [v|].
    + cbn [In yaru_variants] in I.
      let tbl := eval cbv delta [yaru_table] in yaru_table in
      let fit s h :=
        (exists s, h, dark; split; [in_list|split; [exact T|reflexivity]]) in
      repeat (destruct I as [I|I]; [subst v|]); [..|contradiction];
        vm_compute in E; injection E as <-; find_entry tbl fit.
    + vm_compute in E; injection E as <-.
      exists ""%string, "#e95420"%string, dark. split; [in_list|auto].
  - intros (suffix & hex & dark & I & T & ->). unfold ubuntu_color. rewrite T.
    cbn [In yaru_table] in I.
    repeat (destruct I as [I|I]; [inversion I; subst suffix hex|]);
      [..|contradiction]; destruct dark; vm_compute; reflexivity.
Qed.

(** C8: the extension strategy returns a colour exactly when the trimmed
    output is one of the seven names between quotes, the colour being the one
    of the table; ['brown'] gives [#865e3c]; a name followed by [-dark] gives
    [null]. *)
Theorem extension_color_spec :
  (forall (output : jsstring) (c : color),
     gnomeCustomAccentColorExtension_color output = Some c <->
     exists name hex,
       In (name, hex) extension_table
       /\ trim output = quoted name /\ c = str hex)
  /\ gnomeCustomAccentColorExtension_color (str "'brown'") = Some (str "#865e3c")
  /\ (forall name hex,
        In (name, hex) extension_table ->
        gnomeCustomAccentColorExtension_color (quoted (name ++ "-dark")) = None).
Proof.
  split; [|split; [vm_compute; reflexivity|]].
  - intros output c. split.
    + unfold gnomeCustomAccentColorExtension_color.
      destruct (jsmatch extension_re (trim output)) as [m|] eqn:J; [|discriminate].
      apply extension_match_inv in J. destruct J as (name & I & T & ->).
      intros E. cbn [In extension_names] in I.
      let tbl := eval cbv delta [extension_table] in extension_table in
      let fit s h :=
        (exists s, h; split; [in_list|split; [exact T|reflexivity]]) in
      repeat (destruct I as [I|I]; [subst name|]); [..|contradiction];
        vm_compute in E; injection E as <-; find_entry tbl fit.
    + intros (name & hex & I & T & ->).
      unfold gnomeCustomAccentColorExtension_color. rewrite T.
      cbn [In extension_table] in I.
      repeat (destruct I as [I|I]; [inversion I; subst name hex|]);
        [..|contradiction]; vm_compute; reflexivity.
  - intros name hex I. cbn [In extension_table] in I.
    repeat (destruct I as [I|I]; [inversion I; subst name hex|]);
      [..|contradiction]; vm_compute; reflexivity.
Qed.

(** ** The dispatcher *)

Section Dispatcher.
Variable W : Type.
Variable close : command -> W -> child_process * W.

Lemma run_bind {A B : Type} (p : prog A) (f : A -> prog B) (st : state W) :
  run close (bind p f) st =
  match run close p st with
  | (Val a, st') => run close (f a) st'
  | (Exn e, st') => (Exn e, st')
  end.
Proof.
  revert st; induction p as [a|e|c k IH|k IH|v k IH]; intros st; simpl; auto.
  destruct (closed close c (spawn c st)) as [child st']. apply IH.
Qed.

Lemma run_try_catch {A : Type} (p : prog A) (h : error -> prog A) (st : state W) :
  run close (try_catch p h) st =
  match run close p st with
  | (Val a, st') => (Val a, st')
  | (Exn e, st') => run close (h e) st'
  end.
Proof.
  revert st; induction p as [a|e|c k IH|k IH|v k IH]; intros st; simpl; auto.
  destruct (closed close c (spawn c st)) as [child st']. apply IH.
Qed.

Lemma run_on_close (child : child_process) (st : state W) :
  run close (on_close child) st = (transport child, st).
Proof.
  unfold on_close, transport.
  destruct (error_event child); [reflexivity|].
  destruct (exitCode child) as [[|q|q]|]; reflexivity.
Qed.

(** A strategy spawns its command once and maps what the child wrote. *)
Lemma run_strategy (c : command) (f : jsstring -> option color) (st : state W) :
  run close (output <- runCommandHelper (file c) (args c) ;; Ret (f output)) st =
  let '(child, st') := closed close c (spawn c st) in (probe f child, st').
Proof.
  destruct c as [fl ar]. cbn [file args runCommandHelper bind run].
  destruct (closed close _ _) as [child st'].
  rewrite run_bind, run_on_close. unfold probe.
  destruct (transport child); reflexivity.
Qed.

Lemma run_xdgDesktopPortal (st : state W) :
  run close xdgDesktopPortal st =
  let '(child, st') := closed close portal_command (spawn portal_command st) in
  (probe xdgDesktopPortal_color child, st').
Proof. apply (run_strategy portal_command). Qed.

Lemma run_ubuntu (st : state W) :
  run close ubuntu st =
  let '(child, st') := closed close ubuntu_command (spawn ubuntu_command st) in
  (probe ubuntu_color child, st').
Proof. apply (run_strategy ubuntu_command). Qed.

Lemma run_gnomeCustomAccentColorExtension (st : state W) :
  run close gnomeCustomAccentColorExtension st =
  let '(child, st') := closed close extension_command (spawn extension_command st) in
  (probe gnomeCustomAccentColorExtension_color child, st').
Proof. apply (run_strategy extension_command). Qed.

Lemma strategy_spec_inv (i : Z) c f :
  strategy_spec i = Some (c, f) ->
  (i = 0 /\ c = portal_command /\ f = xdgDesktopPortal_color)%Z \/
  (i = 1 /\ c = ubuntu_command /\ f = ubuntu_color)%Z \/
  (i = 2 /\ c = extension_command /\ f = gnomeCustomAccentColorExtension_color)%Z.
Proof.
  destruct i as [|[q|[q|q|]|]|q]; simpl; intros E; inversion E; auto.
Qed.

Lemma run_call_strategy (i : Z) c f (st : state W) :
  strategy_spec i = Some (c, f) ->
  run close (call_strategy i) st =
  let '(child, st') := closed close c (spawn c st) in (probe f child, st').
Proof.
  intros E. destruct (strategy_spec_inv _ E) as [(-> & -> & ->)|[(-> & -> & ->)|(-> & -> & ->)]].
  - apply run_xdgDesktopPortal.
  - apply run_ubuntu.
  - apply run_gnomeCustomAccentColorExtension.
Qed.

Lemma closed_spawn_index (c : command) (st : state W) :
  usedStrategyIndex (snd (closed close c (spawn c st))) = usedStrategyIndex st.
Proof. unfold closed. simpl. destruct (close c (host st)); reflexivity. Qed.

Lemma closed_spawn_spawned (c : command) (st : state W) :
  spawned (snd (closed close c (spawn c st))) = spawned st ++ [c].
Proof. unfold closed. simpl. destruct (close c (host st)); reflexivity. Qed.

Lemma closed_spawn_child (c : command) (st : state W) :
  fst (closed close c (spawn c st)) = fst (close c (host st)).
Proof. unfold closed. simpl. destruct (close c (host st)); reflexivity. Qed.

(** The loop of the discovery, one strategy after the other. *)
Lemma run_discover_cons (i : Z) strategy rest (st : state W) :
  run close (discover i (strategy :: rest)) st =
  match run close strategy st with
  | (Val (Some c), st') => (Val (Some c), store i st')
  | (_, st') => run close (discover (i + 1) rest) st'
  end.
Proof.
  cbn [discover]. rewrite run_bind, run_try_catch.
  destruct (run close strategy st) as [[[c|]|e] st']; reflexivity.
Qed.

(** The discovery, in terms of the three children. *)
Lemma run_discovery (st : state W) :
  usedStrategyIndex st = None ->
  let '(ch0, s1) := closed close portal_command (spawn portal_command st) in
  let '(ch1, s2) := closed close ubuntu_command (spawn ubuntu_command s1) in
  let '(ch2, s3) := closed close extension_command (spawn extension_command s2) in
  run close getLinuxAccentColor st =
    match probe xdgDesktopPortal_color ch0, probe ubuntu_color ch1,
          probe gnomeCustomAccentColorExtension_color ch2 with
    | Val (Some c), _, _ => (Val (Some c), store 0 s1)
    | _, Val (Some c), _ => (Val (Some c), store 1 s2)
    | _, _, Val (Some c) => (Val (Some c), store 2 s3)
    | _, _, _ => (Val None, store (-1) s3)
    end.
Proof.
  intros U.
  destruct (closed close portal_command _) as [ch0 s1] eqn:C0.
  destruct (closed close ubuntu_command _) as [ch1 s2] eqn:C1.
  destruct (closed close extension_command _) as [ch2 s3] eqn:C2.
  cbn [getLinuxAccentColor run]. rewrite U. unfold strategies.
  rewrite run_discover_cons, run_xdgDesktopPortal, C0.
  destruct (probe xdgDesktopPortal_color ch0) as [[c|]|e]; try reflexivity;
    (rewrite run_discover_cons, run_ubuntu, C1;
     destruct (probe ubuntu_color ch1) as [[c1|]|e1]; try reflexivity;
     rewrite run_discover_cons, run_gnomeCustomAccentColorExtension, C2;
     destruct (probe gnomeCustomAccentColorExtension_color ch2) as [[c2|]|e2];
     reflexivity).
Qed.

(** A call in a state other than Unknown. *)
Lemma run_resolved (st : state W) (i : Z) :
  usedStrategyIndex st = Some i ->
  run close getLinuxAccentColor st =
  if (i =? -1)%Z then (Val None, st)
  else
    match strategy_spec i with
    | Some (c, f) =>
        let '(child, st') := closed close c (spawn c st) in (probe f child, st')
    | None => (Exn TypeError, st)
    end.
Proof.
  intros U. cbn [getLinuxAccentColor run]. rewrite U.
  destruct (i =? -1)%Z eqn:E; [reflexivity|].
  destruct (strategy_spec i) as [[c f]|] eqn:S.
  - apply run_call_strategy, S.
  - unfold call_strategy. destruct (i <? 0)%Z eqn:N; [reflexivity|].
    apply Z.ltb_ge in N.
    assert (G : (3 <= i)%Z).
    { destruct i as [|[q|[q|q|]|]|q]; try discriminate; lia. }
    replace (nth_error strategies (Z.to_nat i))
      with (@None (prog (option color))); [reflexivity|].
    symmetry. apply nth_error_None. simpl. lia.
Qed.

(** C1: in the state Unknown the three strategies are run in the order
    portal, theme name, extension, each from the state the one before left;
    a strategy that fails or returns [null] is passed over; the first colour
    is returned with its index stored; with no colour at all -1 is stored and
    [null] returned. *)
Theorem discovery_in_fixed_order (st : state W) :
  usedStrategyIndex st = None ->
  let '(r0, s1) := run close xdgDesktopPortal st in
  let '(r1, s2) := run close ubuntu s1 in
  let '(r2, s3) := run close gnomeCustomAccentColorExtension s2 in
  run close getLinuxAccentColor st =
    match r0, r1, r2 with
    | Val (Some c), _, _ => (Val (Some c), store 0 s1)
    | _, Val (Some c), _ => (Val (Some c), store 1 s2)
    | _, _, Val (Some c) => (Val (Some c), store 2 s3)
    | _, _, _ => (Val None, store (-1) s3)
    end
  /\ spawned s1 = spawned st ++ [portal_command]
  /\ spawned s2 = spawned s1 ++ [ubuntu_command]
  /\ spawned s3 = spawned s2 ++ [extension_command].
Proof.
  intros U. pose proof (run_discovery st U) as D.
  rewrite run_xdgDesktopPortal.
  pose proof (closed_spawn_spawned portal_command st) as L0.
  destruct (closed close portal_command _) as [ch0 s1].
  rewrite run_ubuntu.
  pose proof (closed_spawn_spawned ubuntu_command s1) as L1.
  destruct (closed close ubuntu_command _) as [ch1 s2].
  rewrite run_gnomeCustomAccentColorExtension.
  pose proof (closed_spawn_spawned extension_command s2) as L2.
  destruct (closed close extension_command _) as [ch2 s3].
  simpl in L0, L1, L2. auto.
Qed.

End Dispatcher.

(** C1 on an Ubuntu desktop without the portal. *)
Lemma discovery_in_fixed_order_witness :
  run ubuntu_host getLinuxAccentColor (initial tt) =
    (Val (Some (str "#7764d8")),
     {| usedStrategyIndex := Some 1%Z; host := tt;
        spawned := [portal_command; ubuntu_command] |}).
Proof.
  pose proof (@discovery_in_fixed_order unit ubuntu_host (initial tt) eq_refl) as H.
  vm_compute in H. destruct H as [H _]. vm_compute. exact H.
Defined.

Section Calls.
Variable W : Type.
Variable close : command -> W -> child_process * W.

Lemma run_unknown_returns (st : state W) :
  usedStrategyIndex st = None ->
  exists v i,
    run close getLinuxAccentColor st =
      (Val v, store i (snd (run close getLinuxAccentColor st)))
    /\ (-1 <= i < 3)%Z.
Proof.
  intros U. pose proof (run_discovery close st U) as D.
  destruct (closed close portal_command _) as [ch0 s1].
  destruct (closed close ubuntu_command _) as [ch1 s2].
  destruct (closed close extension_command _) as [ch2 s3].
  rewrite D.
  destruct (probe xdgDesktopPortal_color ch0) as [[c|]|e];
    [exists (Some c), 0%Z; split; [reflexivity|lia]|..];
    (destruct (probe ubuntu_color ch1) as [[c1|]|e1];
     [exists (Some c1), 1%Z; split; [reflexivity|lia]|..]);
    (destruct (probe gnomeCustomAccentColorExtension_color ch2) as [[c2|]|e2];
     [exists (Some c2), 2%Z; split; [reflexivity|lia]|..]);
    (exists None, (-1)%Z; split; [reflexivity|lia]).
Qed.

(** C2: a call in the state Unknown never throws; a call throws [e] exactly
    when the state holds the index of a strategy whose child fails to start or
    leaves with a status other than 0, [e] being that failure; when the child
    of the remembered strategy succeeds, the call returns what the strategy
    makes of its output, [null] when the output does not parse. *)
Theorem throws_only_when_resolved (st : state W) :
  valid_index (usedStrategyIndex st) ->
  (usedStrategyIndex st = None ->
     exists v, fst (run close getLinuxAccentColor st) = Val v)
  /\ (forall e,
        fst (run close getLinuxAccentColor st) = Exn e <->
        exists i c f,
          usedStrategyIndex st = Some i /\ strategy_spec i = Some (c, f) /\
          transport (fst (close c (host st))) = Exn e)
  /\ (forall i c f output,
        usedStrategyIndex st = Some i -> strategy_spec i = Some (c, f) ->
        transport (fst (close c (host st))) = Val output ->
        fst (run close getLinuxAccentColor st) = Val (f output)).
Proof.
  intros V.
  destruct (usedStrategyIndex st) as [i|] eqn:U.
  - pose proof (run_resolved close st U) as R.
    split; [discriminate|]. split.
    + intros e. split.
      * intros E. rewrite R in E.
        destruct (i =? -1)%Z eqn:I; [discriminate|]. apply Z.eqb_neq in I.
        destruct (strategy_spec i) as [[c f]|] eqn:S.
        -- exists i, c, f. split; [reflexivity|]. split; [assumption|].
           pose proof (closed_spawn_child close c st) as C.
           destruct (closed close c (spawn c st)) as [child st']. cbn [fst snd] in *.
           subst child. unfold probe in E.
           destruct (transport (fst (close c (host st))));
             [discriminate|inversion E; reflexivity].
        -- cbn [valid_index] in V.
           assert (T : (i = 0 \/ i = 1 \/ i = 2)%Z) by lia.
           destruct T as [T|[T|T]]; subst i; discriminate S.
      * intros (j & c & f & J & S & T). inversion J; subst j. rewrite R.
        destruct (i =? -1)%Z eqn:I.
        { apply Z.eqb_eq in I. subst i. discriminate. }
        rewrite S. pose proof (closed_spawn_child close c st) as C.
        destruct (closed close c (spawn c st)) as [child st']. cbn [fst snd] in *.
        subst child. unfold probe. rewrite T. reflexivity.
    + intros j c f output J S T. inversion J; subst j. rewrite R.
      destruct (i =? -1)%Z eqn:I.
      { apply Z.eqb_eq in I. subst i. discriminate. }
      rewrite S. pose proof (closed_spawn_child close c st) as C.
      destruct (closed close c (spawn c st)) as [child st']. cbn [fst snd] in *.
      subst child. unfold probe. rewrite T. reflexivity.
  - destruct (run_unknown_returns st U) as (v & i & E & _).
    split; [intros _; exists v; rewrite E; reflexivity|].
    split; [|discriminate].
    intros e. split.
    + rewrite E. discriminate.
    + intros (j & c & f & J & _). discriminate.
Qed.

(** A call leaves an index that is stored where it is. *)
Lemma run_keeps_index (st : state W) (i : Z) :
  usedStrategyIndex st = Some i ->
  usedStrategyIndex (snd (run close getLinuxAccentColor st)) = Some i.
Proof.
  intros U. rewrite (run_resolved close st U).
  destruct (i =? -1)%Z; [assumption|].
  destruct (strategy_spec i) as [[c f]|]; [|assumption].
  pose proof (closed_spawn_index close c st) as C.
  destruct (closed close c (spawn c st)); cbn [fst snd] in *. congruence.
Qed.

Lemma calls_succ (n : nat) (st : state W) :
  calls close (S n) st =
  (fst (run close getLinuxAccentColor st)
     :: fst (calls close n (snd (run close getLinuxAccentColor st))),
   snd (calls close n (snd (run close getLinuxAccentColor st)))).
Proof.
  cbn [calls]. destruct (run close getLinuxAccentColor st) as [r st1].
  simpl. destruct (calls close n st1); reflexivity.
Qed.

(** C3, for calls that do not overlap: the state starts as Unknown; a call
    in the state Unknown leaves an index or -1; from then on the stored value
    stays, however many calls follow: with -1 every call returns [null] and
    changes nothing, no command is spawned; with the index of a strategy the
    calls spawn the command of that strategy, once per call, and no other. *)
Theorem sequential_calls_settle_once :
  (forall w : W, usedStrategyIndex (initial w) = None)
  /\ (forall st : state W,
        usedStrategyIndex st = None ->
        exists i, usedStrategyIndex (snd (run close getLinuxAccentColor st)) = Some i
                  /\ (-1 <= i < 3)%Z)
  /\ (forall (st : state W) (i : Z) (n : nat),
        usedStrategyIndex st = Some i ->
        usedStrategyIndex (snd (calls close n st)) = Some i
        /\ (i = (-1)%Z -> calls close n st = (repeat (Val None) n, st))
        /\ (forall c f, strategy_spec i = Some (c, f) ->
              spawned (snd (calls close n st)) = spawned st ++ repeat c n)).
Proof.
  split; [reflexivity|]. split.
  - intros st U. destruct (run_unknown_returns st U) as (v & i & E & B).
    exists i. rewrite E. split; [reflexivity|assumption].
  - intros st i n. revert st. induction n as [|n IH]; intros st U.
    + simpl. rewrite app_nil_r. auto.
    + rewrite calls_succ. cbn [fst snd].
      pose proof (run_keeps_index st U) as K.
      destruct (IH _ K) as (I1 & I2 & I3).
      split; [assumption|]. split.
      * intros ->. specialize (I2 eq_refl).
        assert (R : run close getLinuxAccentColor st = (Val None, st))
          by (rewrite (run_resolved close st U); reflexivity).
        rewrite R in *. cbn [fst snd] in *. rewrite I2. reflexivity.
      * intros c f S. rewrite (I3 c f S).
        rewrite (run_resolved close st U).
        destruct (i =? -1)%Z eqn:N.
        { apply Z.eqb_eq in N. subst i. discriminate. }
        rewrite S. pose proof (closed_spawn_spawned close c st) as L.
        destruct (closed close c (spawn c st)); cbn [fst snd] in *. rewrite L.
        rewrite <- app_assoc. reflexivity.
Qed.


(** The values of [usedStrategyIndex] stay among [undefined], -1 and the
    three indices. *)
Lemma run_valid_index (st : state W) :
  valid_index (usedStrategyIndex st) ->
  valid_index (usedStrategyIndex (snd (run close getLinuxAccentColor st))).
Proof.
  intros V. destruct (usedStrategyIndex st) as [i|] eqn:U.
  - rewrite (run_keeps_index st U). exact V.
  - destruct (run_unknown_returns st U) as (v & i & E & B).
    rewrite E. exact B.
Qed.

(** A call that runs alone is the call resumed until it settles. *)
Lemma run_advance {A : Type} (p : prog A) (st : state W) :
  run close p st =
  match advance p st with
  | (Settled r, st') => (r, st')
  | (Awaiting c k, st') =>
      let '(child, st'') := closed close c st' in run close (k child) st''
  end.
Proof.
  revert st; induction p as [a|e|c k IH|k IH|v k IH]; intros st;
    cbn [run advance]; auto.
Qed.

End Calls.

(** C2 where the portal was remembered and [dbus-send] now leaves with
    status 1. *)
Lemma throws_only_when_resolved_witness :
  fst (run ubuntu_host getLinuxAccentColor
         {| usedStrategyIndex := Some 0%Z; host := tt; spawned := [] |})
  = Exn (ExitFailure (Some 1%Z) []).
Proof.
  assert (V : valid_index (Some 0%Z)) by (cbn; lia).
  apply (proj1 (proj2 (@throws_only_when_resolved unit ubuntu_host
           {| usedStrategyIndex := Some 0%Z; host := tt; spawned := [] |} V))).
  exists 0%Z, portal_command, xdgDesktopPortal_color.
  repeat split; reflexivity.
Defined.

(** C3 as stated fails when calls overlap: the first call stores 0, and the
    second call, begun before that, goes on to store 1. *)
Lemma overlapping_calls_store_twice :
  index_history flaky_host overlapping_calls ([], initial 0%nat)
    = [None; None; Some 0%Z; Some 0%Z; Some 1%Z]
  /\ settles_once (index_history flaky_host overlapping_calls ([], initial 0%nat))
     = false.
Proof. split; vm_compute; reflexivity. Qed.


(** The scenario where nothing answers: both calls return [null], the first
    one spawns the three commands and the second one none. *)
Example exhausted_scenario :
  calls bare_host 2 (initial tt)
  = ([Val None; Val None],
     {| usedStrategyIndex := Some (-1)%Z; host := tt;
        spawned := [portal_command; ubuntu_command; extension_command] |}).
Proof. vm_compute. reflexivity. Qed.

(** * More of the module *)

(** ** The command helper, event by event *)

Lemma deliver_app (evs1 evs2 : list child_event) (h : helper) :
  deliver (evs1 ++ evs2) h = deliver evs2 (deliver evs1 h).
Proof. apply fold_left_app. Qed.

(** Before the child closes the handlers only collect. *)
Lemma deliver_collects (evs : list child_event) :
  forall h,
    forallb (fun ev => negb (is_close ev)) evs = true ->
    deliver evs h =
    {| h_error := last_error evs (h_error h);
       h_output := h_output h ++ List.concat (stdout_chunks evs);
       h_errorOutput := h_errorOutput h ++ List.concat (stderr_chunks evs);
       h_promise := h_promise h |}.
Proof.
  induction evs as [|ev evs IH]; intros h F.
  - cbn. rewrite !app_nil_r. destruct h; reflexivity.
  - cbn [forallb] in F. apply andb_true_iff in F. destruct F as [Fe F].
    change (deliver (ev :: evs) h) with (deliver evs (handle ev h)).
    rewrite (IH _ F).
    destruct ev as [d|d|err|code]; [| | |discriminate Fe];
      cbn [handle h_error h_output h_errorOutput h_promise
           last_error stdout_chunks stderr_chunks List.concat];
      rewrite <- ?app_assoc; reflexivity.
Qed.

(** A settled promise stays as it is. *)
Lemma deliver_settled (evs : list child_event) :
  forall h r, h_promise h = Some r -> h_promise (deliver evs h) = Some r.
Proof.
  induction evs as [|ev evs IH]; intros h r P; [exact P|].
  change (deliver (ev :: evs) h) with (deliver evs (handle ev h)).
  apply IH. destruct ev as [d|d|err|code]; cbn [handle h_promise]; auto.
  unfold settle.
  destruct (h_error h); [rewrite P; exact P|].
  destruct code as [[|q|q]|]; rewrite P; exact P.
Qed.

(** X1: the promise of the helper settles when the child closes for the first
    time, the way the closed child settles it: rejected with the last error
    emitted, else rejected with the exit code and what came on stderr when the
    code is not 0, else fulfilled with what came on stdout, chunk after chunk;
    the events after the close change nothing. *)
Theorem helper_settles_at_close
        (before after : list child_event) (code : option Z) :
  forallb (fun ev => negb (is_close ev)) before = true ->
  h_promise (deliver (before ++ CloseEvent code :: after) helper_start)
  = Some (transport (child_at_close before code)).
Proof.
  intros F. rewrite deliver_app.
  change (deliver (CloseEvent code :: after) ?h)
    with (deliver after (handle (CloseEvent code) h)).
  apply deliver_settled. rewrite (deliver_collects _ _ F).
  cbn [handle h_error h_output h_errorOutput helper_start app].
  unfold transport, child_at_close, settle.
  cbn [error_event exitCode stdout_data stderr_data h_promise].
  destruct (last_error before None); [reflexivity|].
  destruct code as [[|q|q]|]; reflexivity.
Qed.

Lemma helper_settles_at_close_witness :
  h_promise
    (deliver
       ([StderrData (str "warning"); StdoutData (str "'Ya");
         StdoutData (str "ru'")]
        ++ CloseEvent (Some 0%Z) :: [CloseEvent (Some 1%Z)])
       helper_start)
  = Some (Val (str "'Yaru'")).
Proof.
  apply (@helper_settles_at_close
           [StderrData (str "warning"); StdoutData (str "'Ya");
            StdoutData (str "ru'")]
           [CloseEvent (Some 1%Z)] (Some 0%Z)).
  reflexivity.
Defined.

(** X2: the promise is pending exactly as long as no 'close' event has come:
    an 'error' event alone does not reject it, and a child that never closes
    leaves the call waiting. *)
Theorem helper_pending_until_close (evs : list child_event) :
  h_promise (deliver evs helper_start) = None
  <-> forallb (fun ev => negb (is_close ev)) evs = true.
Proof.
  split.
  - intros P. destruct (forallb _ evs) eqn:F; [reflexivity|].
    exfalso. revert P. generalize helper_start.
    induction evs as [|ev evs IH]; intros h; [discriminate F|].
    cbn [forallb] in F.
    change (deliver (ev :: evs) h) with (deliver evs (handle ev h)).
    destruct (is_close ev) eqn:C.
    + destruct ev as [d|d|err|code]; try discriminate C.
      destruct (h_promise (handle (CloseEvent code) h)) as [r|] eqn:S.
      * rewrite (deliver_settled _ _ S). discriminate.
      * exfalso. revert S. cbn [handle]. unfold settle.
        destruct (h_error h); destruct (h_promise h) eqn:P;
          destruct code as [[|q|q]|]; cbn [h_promise]; rewrite ?P; discriminate.
    + cbn [negb andb] in F. apply (IH F).
  - intros F. rewrite (deliver_collects _ _ F). reflexivity.
Qed.

(** ** White space around the output *)

Lemma trimStart_white_space (pre s : jsstring) :
  forallb is_white_space pre = true -> trimStart (pre ++ s) = trimStart s.
Proof.
  induction pre as [|c pre IH]; intros F; [reflexivity|].
  cbn [forallb] in F. apply andb_true_iff in F. destruct F as [Fc F].
  cbn [app trimStart]. rewrite Fc. apply IH, F.
Qed.

Lemma trimStart_all_white_space (s : jsstring) :
  forallb is_white_space s = true -> trimStart s = [].
Proof.
  intros F. rewrite <- (app_nil_r s). rewrite (trimStart_white_space _ _ F).
  reflexivity.
Qed.

Lemma trimStart_app (s post : jsstring) :
  trimStart (s ++ post) =
  match trimStart s with
  | [] => trimStart post
  | t => t ++ post
  end.
Proof.
  induction s as [|c s IH]; cbn [app trimStart].
  - destruct (trimStart post); reflexivity.
  - destruct (is_white_space c); [exact IH|reflexivity].
Qed.

Lemma forallb_rev {A : Type} (f : A -> bool) (l : list A) :
  forallb f (rev l) = forallb f l.
Proof.
  induction l as [|x l IH]; [reflexivity|].
  cbn [rev forallb]. rewrite forallb_app, IH. cbn [forallb].
  rewrite andb_true_r. apply andb_comm.
Qed.

Lemma trimEnd_white_space (s post : jsstring) :
  forallb is_white_space post = true -> trimEnd (s ++ post) = trimEnd s.
Proof.
  intros F. unfold trimEnd. rewrite rev_app_distr.
  rewrite trimStart_white_space; [reflexivity|].
  rewrite forallb_rev. exact F.
Qed.

Lemma trim_white_space (pre s post : jsstring) :
  forallb is_white_space pre = true ->
  forallb is_white_space post = true ->
  trim (pre ++ s ++ post) = trim s.
Proof.
  intros Fpre Fpost. unfold trim.
  rewrite (trimStart_white_space _ _ Fpre), trimStart_app.
  destruct (trimStart s) as [|c t] eqn:T.
  - rewrite (trimStart_all_white_space _ Fpost). reflexivity.
  - apply trimEnd_white_space, Fpost.
Qed.

(** X3: white space before and after the output of a command changes nothing
    to what a strategy makes of it: each of the three strategies gives the
    same colour, or [null], for [pre ++ s ++ post] as for [s] when [pre] and
    [post] are white space (the newline [gsettings] ends its line with, the
    indentation of the reply of [dbus-send]). *)
Theorem strategies_ignore_outer_white_space (pre s post : jsstring) :
  forallb is_white_space pre = true ->
  forallb is_white_space post = true ->
  xdgDesktopPortal_color (pre ++ s ++ post) = xdgDesktopPortal_color s
  /\ ubuntu_color (pre ++ s ++ post) = ubuntu_color s
  /\ gnomeCustomAccentColorExtension_color (pre ++ s ++ post)
     = gnomeCustomAccentColorExtension_color s.
Proof.
  intros Fpre Fpost.
  unfold xdgDesktopPortal_color, ubuntu_color, gnomeCustomAccentColorExtension_color.
  rewrite (trim_white_space _ _ _ Fpre Fpost). auto.
Qed.

Lemma strategies_ignore_outer_white_space_witness :
  ubuntu_color (str "  " ++ str "'Yaru-red'" ++ [10%N; 13%N; 0x2028%N])
  = ubuntu_color (str "'Yaru-red'").
Proof.
  apply (@strategies_ignore_outer_white_space
           (str "  ") (str "'Yaru-red'") [10%N; 13%N; 0x2028%N]);
    reflexivity.
Defined.

(** ** Commas in the portal reply *)

Lemma before_comma_digits (int rest : jsstring) :
  forallb is_digit int = true ->
  before_comma (int ++ rest) = int ++ before_comma rest.
Proof.
  induction int as [|d int IH]; intros F; [reflexivity|].
  cbn [forallb] in F. apply andb_true_iff in F. destruct F as [Fd F].
  cbn [app before_comma]. rewrite (IH F).
  unfold is_digit in Fd. apply andb_true_iff in Fd. destruct Fd as [L U].
  apply N.leb_le in L, U. destruct (N.eqb_spec d 44); [lia|reflexivity].
Qed.

Lemma parseFloat_before_comma (t : jsstring) :
  unsigned_number t -> parseFloat (before_comma t) = parseFloat t.
Proof.
  intros (int & rest & -> & N0 & F & R).
  rewrite (before_comma_digits _ _ F).
  destruct R as [->|(sep & frac & -> & S & _ & Ff)]; [reflexivity|].
  cbn [before_comma]. destruct (N.eqb_spec sep 44) as [->|Ns].
  - rewrite app_nil_r. destruct int as [|d int]; [contradiction|].
    symmetry. apply parseFloat_comma, F.
  - rewrite <- (app_nil_r frac) at 1.
    rewrite (before_comma_digits _ _ Ff). cbn [before_comma].
    rewrite app_nil_r. reflexivity.
Qed.

(** X4: in a token of the portal reply nothing is read from a comma on: the
    strategy gives for a reply what the rule of the three tokens gives for
    its tokens cut at their first comma, so [0,92] counts as 0 and [1,5]
    as 1. *)
Theorem portal_reads_no_comma_fraction (output : jsstring) :
  xdgDesktopPortal_color output
  = portal_color_of (map before_comma (portal_tokens output)).
Proof.
  rewrite portal_color_tokens.
  pose proof (portal_tokens_shape output) as S.
  destruct (portal_tokens output) as [|t1 [|t2 [|t3 [|t4 ts]]]]; try reflexivity.
  inversion S as [|? ? S1 S']; subst. inversion S' as [|? ? S2 S'']; subst.
  inversion S'' as [|? ? S3 _]; subst.
  cbn [map portal_color_of].
  rewrite !parseFloat_before_comma by assumption. reflexivity.
Qed.

(** ** What a call returns *)

Lemma xdgDesktopPortal_color_hex (output : jsstring) (c : color) :
  xdgDesktopPortal_color output = Some c -> is_hex_color c = true.
Proof.
  rewrite portal_color_tokens.
  pose proof (portal_tokens_shape output) as S.
  destruct (portal_tokens output) as [|t1 [|t2 [|t3 [|t4 ts]]]]; try discriminate.
  inversion S as [|? ? S1 S']; subst. inversion S' as [|? ? S2 S'']; subst.
  inversion S'' as [|? ? S3 _]; subst.
  cbn [portal_color_of].
  destruct (in_unit_range (parseFloat t1)) eqn:I1; [|discriminate].
  destruct (in_unit_range (parseFloat t2)) eqn:I2; [|discriminate].
  destruct (in_unit_range (parseFloat t3)) eqn:I3; [|discriminate].
  cbn [andb]. intros E; injection E as <-.
  pose proof (hex_byte_digits (in_range_channel S1 I1)) as D1.
  pose proof (hex_byte_digits (in_range_channel S2 I2)) as D2.
  pose proof (hex_byte_digits (in_range_channel S3 I3)) as D3.
  unfold hex_byte in *.
  cbn [forallb] in D1, D2, D3. rewrite andb_true_r in D1, D2, D3.
  apply andb_true_iff in D1, D2, D3.
  destruct D1 as [A1 B1]. destruct D2 as [A2 B2]. destruct D3 as [A3 B3].
  change (str "#") with [35%N].
  cbn [app is_hex_color List.length forallb].
  rewrite A1, B1, A2, B2, A3, B3. reflexivity.
Qed.

Lemma switch_hex (cases : list (string * string)) (v : jsstring) (c : color) :
  forallb (fun e => is_hex_color (str (snd e))) cases = true ->
  switch v cases = Some c -> is_hex_color c = true.
Proof.
  induction cases as [|[name hex] cases IH]; intros F; [discriminate|].
  cbn [forallb snd] in F. apply andb_true_iff in F. destruct F as [Fh F].
  cbn [switch]. destruct (jsstring_eqb v (str name)).
  - intros E; injection E as <-. exact Fh.
  - apply IH, F.
Qed.

Lemma ubuntu_color_hex (output : jsstring) (c : color) :
  ubuntu_color output = Some c -> is_hex_color c = true.
Proof.
  unfold ubuntu_color. destruct (jsmatch ubuntu_re (trim output)) as [m|];
    [|discriminate].
  destruct (m 1%nat) as [variant|].
  - apply switch_hex. reflexivity.
  - intros E; injection E as <-. reflexivity.
Qed.

Lemma gnomeCustomAccentColorExtension_color_hex (output : jsstring) (c : color) :
  gnomeCustomAccentColorExtension_color output = Some c -> is_hex_color c = true.
Proof.
  unfold gnomeCustomAccentColorExtension_color.
  destruct (jsmatch extension_re (trim output)) as [m|]; [|discriminate].
  destruct (m 1%nat) as [name|]; [|discriminate].
  apply switch_hex. reflexivity.
Qed.

(** What a strategy of the list makes of an output is [null] or a colour. *)
Lemma strategy_color_hex (i : Z) (c0 : command) (f : jsstring -> option color)
      (output : jsstring) (c : color) :
  strategy_spec i = Some (c0, f) -> f output = Some c -> is_hex_color c = true.
Proof.
  intros S. destruct (strategy_spec_inv _ S) as [(_ & _ & ->)|[(_ & _ & ->)|(_ & _ & ->)]].
  - apply xdgDesktopPortal_color_hex.
  - apply ubuntu_color_hex.
  - apply gnomeCustomAccentColorExtension_color_hex.
Qed.

Lemma probe_color_hex (i : Z) (c0 : command) (f : jsstring -> option color)
      (child : child_process) (c : color) :
  strategy_spec i = Some (c0, f) -> probe f child = Val (Some c) ->
  is_hex_color c = true.
Proof.
  intros S. unfold probe. destruct (transport child) as [output|e]; [|discriminate].
  intros E; injection E as E. eapply strategy_color_hex; eassumption.
Qed.

Section Returned.
Variable W : Type.
Variable close : command -> W -> child_process * W.

(** X5: whatever the commands print and whatever the state, a colour that
    [getLinuxAccentColor] returns is [#] and six lowercase hexadecimal
    digits. *)
Theorem returned_color_is_hex (st : state W) (c : color) :
  fst (run close getLinuxAccentColor st) = Val (Some c) ->
  is_hex_color c = true.
Proof.
  destruct (usedStrategyIndex st) as [i|] eqn:U.
  - rewrite (run_resolved close st U).
    destruct (i =? -1)%Z; [discriminate|].
    destruct (strategy_spec i) as [[c0 f]|] eqn:S; [|discriminate].
    destruct (closed close c0 (spawn c0 st)) as [child st']. cbn [fst].
    intros P. eapply probe_color_hex; eassumption.
  - pose proof (run_discovery close st U) as D.
    destruct (closed close portal_command _) as [ch0 s1].
    destruct (closed close ubuntu_command _) as [ch1 s2].
    destruct (closed close extension_command _) as [ch2 s3].
    rewrite D.
    destruct (probe xdgDesktopPortal_color ch0) as [[c0|]|e0] eqn:P0;
      [cbn [fst]; intros E; injection E as <-;
       eapply (@probe_color_hex 0%Z); [reflexivity|exact P0]|..];
      (destruct (probe ubuntu_color ch1) as [[c1|]|e1] eqn:P1;
       [cbn [fst]; intros E; injection E as <-;
        eapply (@probe_color_hex 1%Z); [reflexivity|exact P1]|..]);
      (destruct (probe gnomeCustomAccentColorExtension_color ch2) as [[c2|]|e2] eqn:P2;
       [cbn [fst]; intros E; injection E as <-;
        eapply (@probe_color_hex 2%Z); [reflexivity|exact P2]|..]);
      discriminate.
Qed.

End Returned.

Lemma returned_color_is_hex_witness : is_hex_color (str "#7764d8") = true.
Proof.
  apply (@returned_color_is_hex unit ubuntu_host (initial tt) (str "#7764d8")).
  vm_compute. reflexivity.
Defined.

(** ** Calls that overlap, on any host *)

Lemma safe_strategy (i : Z) (c0 : command) (f : jsstring -> option color) :
  strategy_spec i = Some (c0, f) ->
  safe (output <- runCommandHelper (file c0) (args c0) ;; Ret (f output)).
Proof.
  intros S. cbn [runCommandHelper bind safe]. split.
  - destruct (strategy_spec_inv _ S) as [(_ & -> & _)|[(_ & -> & _)|(_ & -> & _)]];
      cbn; auto.
  - intros child. unfold on_close.
    destruct (error_event child); [cbn; discriminate|].
    assert (G : forall output, safe (Ret (f output))).
    { intros output. cbn [safe good_result].
      destruct (f output) as [c|] eqn:E; [|exact I].
      eapply strategy_color_hex; eassumption. }
    destruct (exitCode child) as [[|q|q]|]; cbn [bind safe];
      try discriminate. apply G.
Qed.

Lemma safe_strategies (s : prog (option color)) : In s strategies -> safe s.
Proof.
  intros [<-|[<-|[<-|[]]]].
  - apply (@safe_strategy 0%Z portal_command). reflexivity.
  - apply (@safe_strategy 1%Z ubuntu_command). reflexivity.
  - apply (@safe_strategy 2%Z extension_command). reflexivity.
Qed.

(** The [try] block followed by the rest of the loop. *)
Lemma safe_try (s : prog (option color)) (cont : option color -> prog (option color)) :
  safe s -> safe (cont None) ->
  (forall c, is_hex_color c = true -> safe (cont (Some c))) ->
  safe (accentColor <- try_catch s (fun _ => Ret None) ;; cont accentColor).
Proof.
  intros S N C. induction s as [a|e|c k IH|k IH|v k IH];
    cbn [try_catch bind safe] in *.
  - destruct a as [c|]; [apply C, S|exact N].
  - exact N.
  - destruct S as [Sc Sk]. split; [exact Sc|]. intros child. apply IH, Sk.
  - intros u V. apply IH, S, V.
  - destruct S as [Sv Sk]. split; [exact Sv|]. apply IH, Sk.
Qed.

Lemma safe_discover (rest : list (prog (option color))) :
  forall i : Z,
    (forall s, In s rest -> safe s) ->
    (0 <= i)%Z -> (i + Z.of_nat (List.length rest) <= 3)%Z ->
    safe (discover i rest).
Proof.
  induction rest as [|s rest IH]; intros i S L U; cbn [discover].
  - cbn. split; [lia|exact I].
  - cbn [List.length] in U. apply safe_try.
    + apply S. left. reflexivity.
    + apply IH; [intros s' I'; apply S; right; exact I'|lia|lia].
    + intros c H. cbn [safe good_result]. split; [lia|exact H].
Qed.

Lemma safe_getLinuxAccentColor : safe getLinuxAccentColor.
Proof.
  unfold getLinuxAccentColor. cbn [safe]. intros [i|] V.
  - destruct (Z.eqb_spec i (-1)); [exact I|].
    cbn [valid_index] in V.
    assert (T : (i = 0 \/ i = 1 \/ i = 2)%Z) by lia.
    destruct T as [T|[T|T]]; subst i; apply safe_strategies; cbn; auto.
  - apply safe_discover; [apply safe_strategies|lia|cbn; lia].
Qed.

Section Overlap.
Variable W : Type.
Variable close : command -> W -> child_process * W.

Lemma advance_safe (p : prog (option color)) :
  forall st : state W, safe p -> state_ok st ->
    safe_pending (fst (advance p st)) /\ state_ok (snd (advance p st)).
Proof.
  induction p as [a|e|c k IH|k IH|v k IH]; intros st S O;
    cbn [advance fst snd safe safe_pending] in *.
  - auto.
  - auto.
  - destruct S as [Sc Sk]. split; [exact Sk|].
    destruct O as [V C]. split; [exact V|].
    cbn [spawn spawned]. intros c' I'. apply in_app_or in I'.
    destruct I' as [I'|[<-|[]]]; auto.
  - apply IH; [apply S, O|exact O].
  - destruct S as [Sv Sk]. apply IH; [exact Sk|].
    destruct O as [V C]. split; [exact Sv|exact C].
Qed.

Lemma resume_safe (t : pending (option color)) (st : state W) :
  safe_pending t -> state_ok st ->
  safe_pending (fst (resume close t st)) /\ state_ok (snd (resume close t st)).
Proof.
  intros S O. destruct t as [c k|r]; cbn [resume]; [|auto].
  unfold closed. destruct (close c (host st)) as [child w].
  apply advance_safe; [apply S|exact O].
Qed.

Lemma resume_nth_safe (n : nat) (ts : list (pending (option color))) :
  forall st : state W, Forall safe_pending ts -> state_ok st ->
    Forall safe_pending (fst (resume_nth close n ts st))
    /\ state_ok (snd (resume_nth close n ts st)).
Proof.
  revert n. induction ts as [|t ts IH]; intros n st F O;
    [destruct n; cbn; split; [constructor|assumption|constructor|assumption]|].
  apply Forall_cons_iff in F. destruct F as [Ft Fts].
  destruct n as [|n]; cbn [resume_nth].
  - pose proof (@resume_safe t st Ft O) as R.
    destruct (resume close t st) as [t' st']. cbn [fst snd] in *.
    destruct R. auto.
  - pose proof (IH n st Fts O) as R.
    destruct (resume_nth close n ts st) as [ts' st']. cbn [fst snd] in *.
    destruct R. auto.
Qed.

Lemma step_safe (ev : event) (cfg : list (pending (option color)) * state W) :
  Forall safe_pending (fst cfg) -> state_ok (snd cfg) ->
  Forall safe_pending (fst (step close ev cfg))
  /\ state_ok (snd (step close ev cfg)).
Proof.
  destruct cfg as [ts st]. cbn [fst snd]. intros F O.
  destruct ev as [|n]; cbn [step].
  - pose proof (@advance_safe getLinuxAccentColor st safe_getLinuxAccentColor O) as A.
    destruct (advance getLinuxAccentColor st) as [t st']. cbn [fst snd] in *.
    destruct A as [At Ast]. split; [|exact Ast].
    apply Forall_app. auto.
  - apply resume_nth_safe; assumption.
Qed.

Lemma after_safe (evs : list event) :
  forall cfg : list (pending (option color)) * state W,
    Forall safe_pending (fst cfg) -> state_ok (snd cfg) ->
    Forall safe_pending (fst (after close evs cfg))
    /\ state_ok (snd (after close evs cfg)).
Proof.
  induction evs as [|ev evs IH]; intros cfg F O; [auto|].
  change (after close (ev :: evs) cfg) with (after close evs (step close ev cfg)).
  destruct (@step_safe ev cfg F O). apply IH; assumption.
Qed.

(** X6: whatever the order in which calls are made and children close, and
    whatever the children do, [usedStrategyIndex] is [undefined], -1, 0, 1 or
    2, no command but the three of the module is ever spawned, and every call
    that has settled returned [null] or a colour [#rrggbb] or rejected with
    the failure of a command: [strategies[i]] is never [undefined] when it is
    called. *)
Theorem overlapping_calls_are_safe (w : W) (evs : list event) :
  valid_index (usedStrategyIndex (snd (after close evs ([], initial w))))
  /\ (forall c, In c (spawned (snd (after close evs ([], initial w)))) ->
                In c commands)
  /\ (forall r, In (Settled r) (fst (after close evs ([], initial w))) ->
                good_result r).
Proof.
  destruct (@after_safe evs ([], initial w)) as [F [V C]].
  - constructor.
  - split; [exact I|]. intros c [].
  - split; [exact V|]. split; [exact C|].
    intros r H. rewrite Forall_forall in F. apply (F _ H).
Qed.

End Overlap.

(** ** The children a call awaits *)

Lemma awaits_mono {A : Type} (p : prog A) :
  forall n m, awaits p n -> (n <= m)%nat -> awaits p m.
Proof.
  induction p as [a|e|c k IH|k IH|v k IH]; intros n m H L; cbn [awaits] in *;
    auto.
  - destruct n as [|n]; [contradiction|]. destruct m as [|m]; [lia|].
    intros child. apply (IH child n); [apply H|lia].
  - intros u. apply (IH u n); [apply H|exact L].
  - apply (IH n); assumption.
Qed.

Lemma awaits_bind {A B : Type} (p : prog A) (f : A -> prog B) (m : nat) :
  (forall a, awaits (f a) m) ->
  forall n, awaits p n -> awaits (bind p f) (n + m).
Proof.
  intros F. induction p as [a|e|c k IH|k IH|v k IH]; intros n H;
    cbn [bind awaits] in *.
  - apply (awaits_mono (f a) (F a)). lia.
  - exact I.
  - destruct n as [|n]; [contradiction|]. cbn [Nat.add].
    intros child. apply IH, H.
  - intros u. apply IH, H.
  - apply IH, H.
Qed.

Lemma awaits_try_catch {A : Type} (p : prog A) (h : error -> prog A) :
  (forall e, awaits (h e) 0) -> forall n, awaits p n -> awaits (try_catch p h) n.
Proof.
  intros F. induction p as [a|e|c k IH|k IH|v k IH]; intros n H;
    cbn [try_catch awaits] in *.
  - exact I.
  - apply (awaits_mono (h e) (F e)). lia.
  - destruct n as [|n]; [contradiction|]. intros child. apply IH, H.
  - intros u. apply IH, H.
  - apply IH, H.
Qed.

(** A strategy awaits its one command. *)
Lemma awaits_strategy (s : prog (option color)) : In s strategies -> awaits s 1.
Proof.
  assert (G : forall (f : jsstring -> option color) child,
             awaits (output <- on_close child ;; Ret (f output)) 0).
  { intros f child. unfold on_close.
    destruct (error_event child); [exact I|].
    destruct (exitCode child) as [[|q|q]|]; exact I. }
  intros [<-|[<-|[<-|[]]]]; intros child; apply G.
Qed.

Lemma awaits_discover (rest : list (prog (option color))) :
  forall i : Z,
    (forall s, In s rest -> awaits s 1) ->
    awaits (discover i rest) (List.length rest).
Proof.
  induction rest as [|s rest IH]; intros i S; cbn [discover List.length].
  - exact I.
  - change (Datatypes.S (List.length rest)) with (1 + List.length rest)%nat.
    apply awaits_bind.
    + intros [c|]; [exact I|]. apply IH. intros s' I'. apply S. right. exact I'.
    + apply awaits_try_catch; [intros e; exact I|]. apply S. left. reflexivity.
Qed.

Lemma awaits_getLinuxAccentColor : awaits getLinuxAccentColor 3.
Proof.
  unfold getLinuxAccentColor. cbn [awaits]. intros [i|].
  - destruct (i =? -1)%Z; [exact I|]. unfold call_strategy.
    destruct (i <? 0)%Z; [exact I|].
    destruct (nth_error strategies (Z.to_nat i)) as [s|] eqn:E; [|exact I].
    apply nth_error_In in E.
    apply (awaits_mono s (@awaits_strategy s E)). lia.
  - apply (awaits_discover strategies 0%Z). apply awaits_strategy.
Qed.

Section Awaited.
Variable W : Type.
Variable close : command -> W -> child_process * W.

Lemma resumes_settled {A : Type} (n : nat) (r : result A) (st : state W) :
  resumes close n (Settled r) st = (Settled r, st).
Proof. induction n as [|n IH]; [reflexivity|]. cbn [resumes resume]. exact IH. Qed.

Lemma resumes_run {A : Type} (p : prog A) :
  forall (n : nat) (st : state W),
    awaits p n ->
    resumes close n (fst (advance p st)) (snd (advance p st))
    = (Settled (fst (run close p st)), snd (run close p st)).
Proof.
  induction p as [a|e|c k IH|k IH|v k IH]; intros n st H;
    cbn [advance run fst snd awaits] in *.
  - apply resumes_settled.
  - apply resumes_settled.
  - destruct n as [|n]; [contradiction|]. cbn [resumes resume].
    destruct (closed close c (spawn c st)) as [child st'].
    specialize (IH child n st' (H child)).
    destruct (advance (k child) st') as [t' st'']. exact IH.
  - apply IH, H.
  - apply IH, H.
Qed.

(** X7: a call awaits at most three children, one after the other: once
    the children it awaits have closed, three at the most, it has settled,
    with the result and in the state of the call run alone; further closes
    change nothing. *)
Theorem call_settles_within_three_closes (st : state W) :
  resumes close 3 (fst (advance getLinuxAccentColor st))
          (snd (advance getLinuxAccentColor st))
  = (Settled (fst (run close getLinuxAccentColor st)),
     snd (run close getLinuxAccentColor st)).
Proof. apply resumes_run, awaits_getLinuxAccentColor. Qed.

End Awaited.

(** ** Calls that overlap, on a stable host *)

(** The [try] block of a strategy around a closed child, and the rest of
    the loop. *)
Lemma try_strategy (child : child_process) (f : jsstring -> option color)
      (cont : option color -> prog (option color)) :
  (accentColor <- try_catch (output <- on_close child ;; Ret (f output))
                            (fun _ => Ret None) ;;
   cont accentColor)
  = cont match probe f child with Val v => v | Exn _ => None end.
Proof.
  unfold on_close, probe, transport.
  destruct (error_event child); [reflexivity|].
  destruct (exitCode child) as [[|q|q]|]; reflexivity.
Qed.

Lemma call_strategy_closed (child : child_process) (f : jsstring -> option color) :
  forall (answer : command -> child_process) (w : Z) (c : color),
    probe f child = Val (Some c) ->
    agrees answer w (Some c) (output <- on_close child ;; Ret (f output)).
Proof.
  intros answer w c. unfold on_close, probe, transport.
  destruct (error_event child); [discriminate|].
  destruct (exitCode child) as [[|q|q]|]; try discriminate.
  cbn [bind agrees]. congruence.
Qed.

Lemma agrees_getLinuxAccentColor (answer : command -> child_process) :
  agrees answer (fst (first_answer answer)) (snd (first_answer answer))
         getLinuxAccentColor.
Proof.
  unfold getLinuxAccentColor, first_answer. cbn [agrees]. split.
  - unfold strategies, xdgDesktopPortal, ubuntu, gnomeCustomAccentColorExtension.
    cbn [discover runCommandHelper bind try_catch agrees file args].
    change {| file := file portal_command; args := args portal_command |}
      with portal_command.
    rewrite try_strategy.
    destruct (probe xdgDesktopPortal_color (answer portal_command)) as [[c0|]|e0];
      [cbn; auto|..];
      (cbn [bind try_catch agrees];
       change {| file := file ubuntu_command; args := args ubuntu_command |}
         with ubuntu_command;
       rewrite try_strategy;
       destruct (probe ubuntu_color (answer ubuntu_command)) as [[c1|]|e1];
       [cbn; auto|..]);
      (cbn [bind try_catch agrees];
       change {| file := file extension_command; args := args extension_command |}
         with extension_command;
       rewrite try_strategy;
       destruct (probe gnomeCustomAccentColorExtension_color
                   (answer extension_command)) as [[c2|]|e2];
       cbn; auto).
  - destruct (probe xdgDesktopPortal_color (answer portal_command))
      as [[c0|]|e0] eqn:P0;
      [cbn [fst snd Z.eqb call_strategy Z.ltb Z.compare Z.to_nat nth_error strategies];
       apply (call_strategy_closed _ _ _ _ P0)|..];
      (destruct (probe ubuntu_color (answer ubuntu_command)) as [[c1|]|e1] eqn:P1;
       [apply (call_strategy_closed _ _ _ _ P1)|..]);
      (destruct (probe gnomeCustomAccentColorExtension_color
                   (answer extension_command)) as [[c2|]|e2] eqn:P2;
       [apply (call_strategy_closed _ _ _ _ P2)|..]);
      reflexivity.
Qed.

Section StableOverlap.
Variable W : Type.
Variable close : command -> W -> child_process * W.
Variable answer : command -> child_process.
Hypothesis close_answer : forall c w, fst (close c w) = answer c.

Variable w0 : Z.
Variable r0 : option color.
Hypothesis agrees_call : agrees answer w0 r0 getLinuxAccentColor.

Lemma advance_agrees (p : prog (option color)) :
  forall st : state W,
    agrees answer w0 r0 p -> index_ok w0 st ->
    agrees_pending answer w0 r0 (fst (advance p st))
    /\ index_ok w0 (snd (advance p st))
    /\ (usedStrategyIndex st = Some w0 ->
        usedStrategyIndex (snd (advance p st)) = Some w0).
Proof.
  induction p as [a|e|c k IH|k IH|v k IH]; intros st A O;
    cbn [advance fst snd agrees agrees_pending] in *.
  - split; [congruence|auto].
  - contradiction.
  - auto.
  - destruct A as [An Aw]. destruct O as [O|O].
    + replace (k (usedStrategyIndex st)) with (k None) by (rewrite O; reflexivity).
      apply IH; [exact An|left; exact O].
    + replace (k (usedStrategyIndex st)) with (k (Some w0))
        by (rewrite O; reflexivity).
      apply IH; [exact Aw|right; exact O].
  - destruct A as [-> A].
    destruct (IH (store w0 st) A) as (P & O' & M); [right; reflexivity|].
    split; [exact P|]. split; [exact O'|]. intros _. apply M. reflexivity.
Qed.

Lemma resume_agrees (t : pending (option color)) (st : state W) :
  agrees_pending answer w0 r0 t -> index_ok w0 st ->
  agrees_pending answer w0 r0 (fst (resume close t st))
  /\ index_ok w0 (snd (resume close t st))
  /\ (usedStrategyIndex st = Some w0 ->
      usedStrategyIndex (snd (resume close t st)) = Some w0).
Proof.
  intros A O. destruct t as [c k|r]; cbn [resume]; [|auto].
  unfold closed. pose proof (close_answer c (host st)) as E.
  destruct (close c (host st)) as [child w]. cbn [fst] in E. subst child.
  exact (@advance_agrees (k (answer c))
           {| usedStrategyIndex := usedStrategyIndex st; host := w;
              spawned := spawned st |} A O).
Qed.

Lemma resume_nth_agrees (n : nat) (ts : list (pending (option color))) :
  forall st : state W,
    Forall (agrees_pending answer w0 r0) ts -> index_ok w0 st ->
    Forall (agrees_pending answer w0 r0) (fst (resume_nth close n ts st))
    /\ index_ok w0 (snd (resume_nth close n ts st))
    /\ (usedStrategyIndex st = Some w0 ->
        usedStrategyIndex (snd (resume_nth close n ts st)) = Some w0).
Proof.
  revert n. induction ts as [|t ts IH]; intros n st F O.
  - destruct n; cbn; auto.
  - apply Forall_cons_iff in F. destruct F as [Ft Fts].
    destruct n as [|n]; cbn [resume_nth].
    + pose proof (@resume_agrees t st Ft O) as R.
      destruct (resume close t st) as [t' st']. cbn [fst snd] in *.
      destruct R as (R1 & R2 & R3). auto.
    + pose proof (IH n st Fts O) as R.
      destruct (resume_nth close n ts st) as [ts' st']. cbn [fst snd] in *.
      destruct R as (R1 & R2 & R3). auto.
Qed.

Lemma step_agrees (ev : event) (cfg : list (pending (option color)) * state W) :
  Forall (agrees_pending answer w0 r0) (fst cfg) -> index_ok w0 (snd cfg) ->
  Forall (agrees_pending answer w0 r0) (fst (step close ev cfg))
  /\ index_ok w0 (snd (step close ev cfg))
  /\ (usedStrategyIndex (snd cfg) = Some w0 ->
      usedStrategyIndex (snd (step close ev cfg)) = Some w0).
Proof.
  destruct cfg as [ts st]. cbn [fst snd]. intros F O.
  destruct ev as [|n]; cbn [step].
  - pose proof (@advance_agrees getLinuxAccentColor st agrees_call O) as A.
    destruct (advance getLinuxAccentColor st) as [t st']. cbn [fst snd] in *.
    destruct A as (A1 & A2 & A3). split; [|auto].
    apply Forall_app. auto.
  - apply resume_nth_agrees; assumption.
Qed.

Lemma after_agrees (evs : list event) :
  forall cfg : list (pending (option color)) * state W,
    Forall (agrees_pending answer w0 r0) (fst cfg) -> index_ok w0 (snd cfg) ->
    Forall (agrees_pending answer w0 r0) (fst (after close evs cfg))
    /\ index_ok w0 (snd (after close evs cfg)).
Proof.
  induction evs as [|ev evs IH]; intros cfg F O; [auto|].
  change (after close (ev :: evs) cfg) with (after close evs (step close ev cfg)).
  destruct (@step_agrees ev cfg F O) as (S1 & S2 & _). apply IH; assumption.
Qed.

(** Once the index is stored the history holds nothing else. *)
Lemma history_stays (evs : list event) :
  forall cfg : list (pending (option color)) * state W,
    Forall (agrees_pending answer w0 r0) (fst cfg) ->
    usedStrategyIndex (snd cfg) = Some w0 ->
    forallb (fun u => match u with Some j => Z.eqb w0 j | None => false end)
      (index_history close evs cfg) = true.
Proof.
  induction evs as [|ev evs IH]; intros cfg F U; [reflexivity|].
  cbn [index_history forallb].
  destruct (@step_agrees ev cfg F (or_intror U)) as (S1 & S2 & S3).
  rewrite (S3 U), Z.eqb_refl. apply IH; auto.
Qed.

Lemma history_settles_once (evs : list event) :
  forall cfg : list (pending (option color)) * state W,
    Forall (agrees_pending answer w0 r0) (fst cfg) -> index_ok w0 (snd cfg) ->
    settles_once (index_history close evs cfg) = true.
Proof.
  induction evs as [|ev evs IH]; intros cfg F O; [reflexivity|].
  cbn [index_history settles_once].
  destruct (@step_agrees ev cfg F O) as (S1 & S2 & _).
  destruct S2 as [S2|S2]; rewrite S2.
  - apply IH; [exact S1|left; exact S2].
  - apply history_stays; assumption.
Qed.

End StableOverlap.

Section StableHost.
Variable W : Type.
Variable close : command -> W -> child_process * W.
Variable answer : command -> child_process.

(** X8: on a host where every command closes the same way each time, calls
    that overlap do no harm: in every schedule each call that has settled
    returned the value of the discovery, the variable is [undefined] or the
    index of the discovery, and once stored it never changes. *)
Theorem overlapping_calls_agree_on_stable_host (w : W) (evs : list event) :
  (forall c w', fst (close c w') = answer c) ->
  (forall r, In (Settled r) (fst (after close evs ([], initial w))) ->
             r = Val (snd (first_answer answer)))
  /\ (usedStrategyIndex (snd (after close evs ([], initial w))) = None
      \/ usedStrategyIndex (snd (after close evs ([], initial w)))
         = Some (fst (first_answer answer)))
  /\ settles_once (index_history close evs ([], initial w)) = true.
Proof.
  intros close_answer.
  pose proof (agrees_getLinuxAccentColor answer) as G.
  assert (F : Forall (agrees_pending answer (fst (first_answer answer))
                        (snd (first_answer answer)))
                (fst (([], initial w) : list (pending (option color)) * state W)))
    by constructor.
  assert (O : index_ok (fst (first_answer answer))
                (snd (([], initial w) : list (pending (option color)) * state W)))
    by (left; reflexivity).
  destruct (@after_agrees W close answer close_answer _ _ G evs _ F O) as [A1 A2].
  split; [|split; [exact A2|]].
  - intros r H. rewrite Forall_forall in A1. apply (A1 _ H).
  - apply (@history_settles_once W close answer close_answer _ _ G evs _ F O).
Qed.

End StableHost.

Lemma overlapping_calls_agree_on_stable_host_witness :
  settles_once (index_history portal_host overlapping_calls ([], initial tt))
  = true.
Proof.
  apply (@overlapping_calls_agree_on_stable_host
           unit portal_host (fun c => fst (portal_host c tt)) tt
           overlapping_calls).
  intros c []; reflexivity.
Defined.

(** ** The portal reply read by hand *)

(** The scan on replies with tokens that touch, with a separator that no
    digit follows, and with signs; the values of a token with a comma and of
    tokens with a point. *)
Example scan_tokens_values :
  scan_tokens (str "double1 double  2.50.5double 1,double 0, 7")
  = [str "2.50"; str "1"; str "0"]
  /\ scan_tokens (str "double 1,5 double 0.25double 7.") = [str "1,5"; str "0.25"; str "7"]
  /\ map token_value [str "1,5"; str "0.25"; str "7"]
     = [num_1; S754_finite false 4503599627370496 (-54);
        S754_finite false 7881299347898368 (-50)]
  /\ scan_tokens (str "double -1 double +1 double .5") = [].
Proof. repeat split; vm_compute; reflexivity. Qed.

Lemma span_spec (p : N -> bool) (s : jsstring) :
  s = fst (span p s) ++ snd (span p s)
  /\ forallb p (fst (span p s)) = true
  /\ match snd (span p s) with [] => True | c :: _ => p c = false end.
Proof.
  induction s as [|x s (IH1 & IH2 & IH3)]; cbn [span].
  { repeat split. }
  destruct (p x) eqn:P.
  - destruct (span p s) as [run rest]. cbn [fst snd app forallb] in *.
    rewrite P, IH2. repeat split; [congruence|exact IH3].
  - cbn [fst snd app forallb]. auto.
Qed.

Lemma span_nil (p : N -> bool) (s rest : jsstring) :
  span p s = ([], rest) -> rest = s.
Proof.
  intros E. pose proof (span_spec p s) as [H _]. rewrite E in H. symmetry. exact H.
Qed.

Lemma span_is_digit (s : jsstring) : span is_digit s = span_digits s.
Proof.
  induction s as [|c s IH]; cbn [span span_digits]; [reflexivity|].
  rewrite IH. reflexivity.
Qed.

Lemma firstn_length_app {A : Type} (a b : list A) :
  firstn (List.length a) (a ++ b) = a.
Proof.
  induction a as [|x a IH]; cbn [List.length firstn app]; [reflexivity|].
  rewrite IH. reflexivity.
Qed.

Lemma skipn_length_app {A : Type} (a b : list A) :
  skipn (List.length a) (a ++ b) = b.
Proof.
  induction a as [|x a IH]; cbn [List.length skipn app]; [reflexivity|exact IH].
Qed.

Section Greedy.
Context {A : Type}.
Variable p : N -> bool.
Variable k : nat -> jsstring -> option A.

(** No character of the class: the iteration fails. *)
Lemma match_plus_none (s : jsstring) (i : nat) :
  fst (span p s) = [] -> match_plus p i s k = None.
Proof.
  destruct s as [|x s]; cbn [match_plus span]; [reflexivity|].
  destruct (p x); [|reflexivity].
  destruct (span p s). cbn [fst]. discriminate.
Qed.

(** The iteration takes the longest run when the rest of the pattern
    matches behind it. *)
Lemma match_plus_longest (s : jsstring) :
  forall i run rest a,
    span p s = (run, rest) -> run <> [] ->
    k (i + List.length run) rest = Some a ->
    match_plus p i s k = Some a.
Proof.
  induction s as [|x s IH]; intros i run rest a E N K; cbn [span] in E.
  - injection E as <- <-. contradiction.
  - destruct (p x) eqn:P; [|injection E as <- <-; contradiction].
    cbn [match_plus]. rewrite P.
    destruct (span p s) as [run' rest'] eqn:E'. injection E as <- <-.
    cbn [List.length] in K. rewrite Nat.add_succ_r in K.
    destruct run' as [|y run'].
    + rewrite match_plus_none by (rewrite E'; reflexivity).
      apply span_nil in E'. subst rest'. cbn [List.length] in K.
      rewrite Nat.add_0_r in K. exact K.
    + rewrite (IH (S i) (y :: run') rest' a eq_refl); [reflexivity|discriminate|].
      exact K.
Qed.

Lemma match_plus_greedy (s : jsstring) (i : nat) (run rest : jsstring) :
  span p s = (run, rest) -> run <> [] ->
  k (i + List.length run) rest <> None ->
  match_plus p i s k = k (i + List.length run) rest.
Proof.
  intros E N K. destruct (k (i + List.length run) rest) as [a|] eqn:V;
    [|contradiction].
  eapply match_plus_longest; eassumption.
Qed.

(** When the rest of the pattern cannot begin with a character of the class,
    the iteration takes the longest run or fails. *)
Lemma match_plus_disjoint (s : jsstring) :
  (forall i c s', p c = true -> k i (c :: s') = None) ->
  forall i,
    match_plus p i s k
    = match span p s with
      | ([], _) => None
      | (run, rest) => k (i + List.length run) rest
      end.
Proof.
  intros D. induction s as [|x s IH]; intros i; cbn [match_plus span];
    [reflexivity|].
  destruct (p x) eqn:P; [|reflexivity].
  rewrite IH. pose proof (span_spec p s) as (S1 & S2 & _).
  destruct (span p s) as [run rest] eqn:E. cbn [fst snd] in *.
  cbn [List.length]. rewrite Nat.add_succ_r.
  destruct run as [|y run].
  - cbn [app] in S1. subst rest. cbn [List.length]. rewrite Nat.add_0_r.
    reflexivity.
  - cbn [Nat.add].
    destruct (k (S (i + List.length (y :: run))) rest) as [a|] eqn:K;
      [reflexivity|].
    cbn [forallb] in S2. apply andb_true_iff in S2. destruct S2 as [Py _].
    rewrite S1. cbn [app]. apply D, Py.
Qed.
End Greedy.

(** A literal word matches when the input begins with it. *)
Lemma rmatch_word {A : Type} (cs : jsstring) :
  forall i s c (k : nat -> jsstring -> captures -> option A),
    rmatch (word cs) i s c k
    = match after_word cs s with
      | Some rest => k (i + List.length cs)%nat rest c
      | None => None
      end.
Proof.
  induction cs as [|a cs IH]; intros i s c k.
  - cbn [word rmatch after_word List.length]. rewrite Nat.add_0_r.
    destruct s; reflexivity.
  - assert (E : rmatch (word (a :: cs)) i s c k
                = rmatch (Chr a) i s c (fun i' s' c' => rmatch (word cs) i' s' c' k)).
    { destruct cs; reflexivity. }
    rewrite E. cbn [rmatch after_word List.length].
    destruct s as [|x s]; [reflexivity|].
    destruct (N.eqb x a); [|reflexivity].
    rewrite IH, Nat.add_succ_r. reflexivity.
Qed.

Lemma number_at_app (s t rest : jsstring) :
  number_at s = Some (t, rest) -> s = t ++ rest /\ t <> [].
Proof.
  unfold number_at. pose proof (span_spec is_digit s) as (S1 & _ & _).
  destruct (span is_digit s) as [int r]. cbn [fst snd] in S1.
  destruct int as [|d int]; [discriminate|].
  assert (G : Some (d :: int, r) = Some (t, rest) -> s = t ++ rest /\ t <> []).
  { intros E. injection E as <- <-. split; [exact S1|discriminate]. }
  destruct r as [|sep r']; [exact G|].
  destruct (N.eqb sep 44 || N.eqb sep 46); [|exact G].
  pose proof (span_spec is_digit r') as (S2 & _ & _).
  destruct (span is_digit r') as [frac r'']. cbn [fst snd] in S2.
  destruct frac as [|f frac]; [exact G|].
  intros E. injection E as <- <-. split; [|discriminate].
  rewrite S1, S2. cbn [app]. rewrite <- app_assoc. reflexivity.
Qed.

(** The capturing group of the portal pattern, followed by the end of the
    pattern: the number at the head of the input. *)
Lemma rmatch_number (i : nat) (s : jsstring) (c : captures) :
  rmatch (Group 1 (Cat (Plus is_digit)
                       (Opt (Cat (Class is_comma_or_dot) (Plus is_digit)))))
         i s c (fun i' _ c' => Some (i', c'))
  = match number_at s with
    | Some (t, _) => Some ((i + List.length t)%nat, set_capture 1 t c)
    | None => None
    end.
Proof.
  cbn [rmatch]. unfold number_at.
  pose proof (span_spec is_digit s) as (S1 & _ & _).
  destruct (span is_digit s) as [int r] eqn:E. cbn [fst snd] in S1.
  destruct int as [|d int].
  { apply match_plus_none. rewrite E. reflexivity. }
  assert (F : forall t r0, s = t ++ r0 -> forall j, j = (i + List.length t)%nat ->
                Some (j, set_capture 1 (firstn (j - i) s) c)
                = Some ((i + List.length t)%nat, set_capture 1 t c)).
  { intros t r0 -> j ->. rewrite Nat.add_comm, Nat.add_sub, firstn_length_app.
    reflexivity. }
  rewrite (@match_plus_greedy _ is_digit _ s i _ _ E); [|discriminate|];
    cbv beta.
  2:{ match goal with
      | |- match ?x with _ => _ end <> None => destruct x; discriminate
      end. }
  destruct r as [|sep r']; [apply (F _ _ S1); reflexivity|].
  unfold is_comma_or_dot.
  destruct (N.eqb sep 44 || N.eqb sep 46); [|apply (F _ _ S1); reflexivity].
  pose proof (span_spec is_digit r') as (S2 & _ & _).
  destruct (span is_digit r') as [frac r''] eqn:E2. cbn [fst snd] in S2.
  destruct frac as [|f frac].
  { rewrite match_plus_none by (rewrite E2; reflexivity).
    apply (F _ _ S1); reflexivity. }
  erewrite match_plus_longest; [reflexivity|exact E2|discriminate|].
  cbv beta.
  destruct (Nat.eqb_spec (S (i + List.length (d :: int)) + List.length (f :: frac))
                         (i + List.length (d :: int))) as [Q|_]; [lia|].
  apply (F ((d :: int) ++ sep :: f :: frac) r'').
  - rewrite S1, S2. cbn [app]. rewrite <- app_assoc. reflexivity.
  - rewrite length_app. cbn [List.length]. lia.
Qed.

Lemma after_word_app (w s r : jsstring) : after_word w s = Some r -> s = w ++ r.
Proof.
  revert s. induction w as [|a w IH]; intros s E; cbn [after_word] in E.
  - destruct s; injection E as <-; reflexivity.
  - destruct s as [|b s]; [discriminate|].
    destruct (N.eqb_spec b a) as [->|]; [|discriminate].
    cbn [app]. f_equal. apply IH, E.
Qed.

Lemma token_at_app (s t rest : jsstring) :
  token_at s = Some (t, rest) ->
  exists pre, s = pre ++ rest /\ pre <> [].
Proof.
  unfold token_at. destruct (after_word (str "double") s) as [r|] eqn:W;
    [|discriminate].
  apply after_word_app in W.
  pose proof (span_spec is_white_space r) as (S1 & _ & _).
  destruct (span is_white_space r) as [ws r1]. cbn [fst snd] in S1.
  destruct ws as [|w ws]; [discriminate|].
  intros N. apply number_at_app in N. destruct N as [N _].
  exists (str "double" ++ (w :: ws) ++ t). split; [|discriminate].
  rewrite W, S1, N, <- !app_assoc. reflexivity.
Qed.

(** One attempt of the portal pattern: the token at the head of the input. *)
Lemma match_at_portal (i : nat) (s : jsstring) :
  match_at portal_re i s
  = match token_at s with
    | Some (t, rest) =>
        Some ((i + (List.length s - List.length rest))%nat,
              set_capture 1 t no_captures)
    | None => None
    end.
Proof.
  unfold match_at, portal_re, lit.
  change (rmatch (Cat ?r1 ?r2) ?i ?s ?c ?k)
    with (rmatch r1 i s c (fun i' s' c' => rmatch r2 i' s' c' k)).
  rewrite rmatch_word. unfold token_at.
  destruct (after_word (str "double") s) as [r|] eqn:W; [|reflexivity].
  apply after_word_app in W.
  change (rmatch (Cat (Plus ?p) ?r2) ?i ?s ?c ?k)
    with (match_plus p i s (fun i' s' => rmatch r2 i' s' c k)).
  rewrite match_plus_disjoint.
  2:{ intros j x s' Wx. rewrite rmatch_number. unfold number_at.
      cbn [span]. destruct (is_digit x) eqn:D; [|reflexivity].
      rewrite (is_digit_not_white_space x D) in Wx. discriminate. }
  pose proof (span_spec is_white_space r) as (S1 & _ & _).
  destruct (span is_white_space r) as [ws r1]. cbn [fst snd] in S1.
  destruct ws as [|w ws]; [reflexivity|].
  rewrite rmatch_number.
  destruct (number_at r1) as [[t rest]|] eqn:N; [|reflexivity].
  apply number_at_app in N. destruct N as [N _].
  f_equal. f_equal. rewrite W, S1, N, !length_app. lia.
Qed.

(** Characters passed over are characters dropped. *)
Lemma matchAll_from_skip (r : regex) (k : nat) :
  forall s i, (k <= List.length s)%nat ->
    matchAll_from r i s k = matchAll_from r (i + k) (skipn k s) 0.
Proof.
  induction k as [|k IH]; intros s i L.
  - rewrite Nat.add_0_r. reflexivity.
  - destruct s as [|x s]; cbn [List.length] in L; [lia|].
    cbn [skipn]. rewrite Nat.add_succ_r.
    change (matchAll_from r i (x :: s) (S k)) with (matchAll_from r (S i) s k).
    apply IH. lia.
Qed.

Lemma matchAll_scan (fuel : nat) :
  forall s i, (List.length s < fuel)%nat ->
    map (fun m => group_text m 1) (matchAll_from portal_re i s 0)
    = scan_tokens_from fuel s.
Proof.
  induction fuel as [|fuel IH]; intros s i L; [lia|].
  cbn [scan_tokens_from].
  destruct s as [|x s].
  - change (matchAll_from portal_re i [] 0)
      with (match match_at portal_re i [] with
            | Some (e, c) => [c]
            | None => []
            end).
    rewrite match_at_portal. reflexivity.
  - change (matchAll_from portal_re i (x :: s) 0)
      with (match match_at portal_re i (x :: s) with
            | Some (e, c) => c :: matchAll_from portal_re (S i) s (Nat.pred (e - i))
            | None => matchAll_from portal_re (S i) s 0
            end).
    rewrite match_at_portal.
    cbn [List.length] in L.
    destruct (token_at (x :: s)) as [[t rest]|] eqn:T.
    + apply token_at_app in T. destruct T as (pre & T & N).
      destruct pre as [|y pre]; [contradiction|].
      cbn [app] in T. injection T as <- ->.
      cbn [map]. f_equal.
      replace (Nat.pred (i + (List.length (x :: pre ++ rest) - List.length rest) - i))
        with (List.length pre)
        by (cbn [List.length]; rewrite length_app; lia).
      rewrite matchAll_from_skip by (rewrite length_app; lia).
      rewrite skipn_length_app. apply IH.
      rewrite length_app in L. lia.
    + apply IH. lia.
Qed.

(** The matches of the pattern are the tokens of the scan. *)
Lemma portal_tokens_scan (output : jsstring) :
  portal_tokens output = scan_tokens (trim output).
Proof.
  unfold portal_tokens, matchAll, scan_tokens. apply matchAll_scan. lia.
Qed.

(** [parseFloat] on the number of a token. *)
Lemma parseFloat_token (t : jsstring) :
  unsigned_number t -> parseFloat t = token_value t.
Proof.
  intros (int & rest & -> & N & F & R).
  destruct int as [|d int]; [contradiction|].
  pose proof F as F'. cbn [forallb] in F'.
  apply andb_true_iff in F'. destruct F' as [D _].
  assert (H : match rest with [] => True | c :: _ => is_digit c = false end).
  { destruct R as [->|(sep & frac & -> & Sep & _)]; [exact I|].
    unfold is_comma_or_dot in Sep. apply orb_true_iff in Sep.
    destruct Sep as [Q|Q]; apply N.eqb_eq in Q; subst sep; reflexivity. }
  unfold token_value. rewrite span_is_digit, (span_digits_app _ _ F H).
  unfold parseFloat. cbn [app trimStart].
  rewrite (is_digit_not_white_space d D).
  pose proof D as D'. unfold is_digit in D'. apply andb_true_iff in D'.
  destruct D' as [L U]. apply N.leb_le in L, U.
  cbn [strip]. destruct (N.eqb_spec d 45); [lia|]. destruct (N.eqb_spec d 43); [lia|].
  unfold parse_unsigned.
  change (str "Infinity") with (73%N :: str "nfinity"). cbn [starts_with].
  destruct (N.eqb_spec 73 d); [lia|]. cbn [andb].
  change (d :: int ++ rest) with ((d :: int) ++ rest).
  rewrite (span_digits_app _ _ F H).
  destruct R as [->|(sep & frac & -> & Sep & NF & FF)]; [reflexivity|].
  cbn [strip]. destruct (N.eqb_spec sep 46) as [->|NE].
  - pose proof (span_digits_app frac [] FF I) as E. rewrite app_nil_r in E.
    rewrite E. cbn [parse_exponent]. reflexivity.
  - unfold is_comma_or_dot in Sep. apply orb_true_iff in Sep.
    destruct Sep as [Q|Q]; apply N.eqb_eq in Q; [subst sep|contradiction].
    reflexivity.
Qed.

(** X9: the matches of the pattern are the tokens a scan from left to right
    finds (the word [double], white space, digits and, when a comma or a
    point with a digit after it follows, the separator and its digits, the
    scan going on behind a token), and the strategy gives the colour of the
    values of these tokens: three of them, each in [0, 1], a byte for
    each; the value of a token with a point is the Number nearest to its
    decimal, the value of a token with a comma that of the integer before
    the comma. *)
Theorem portal_reads_tokens_by_scan (output : jsstring) :
  portal_tokens output = scan_tokens (trim output)
  /\ xdgDesktopPortal_color output
     = color_of_values (map token_value (scan_tokens (trim output))).
Proof.
  split; [apply portal_tokens_scan|].
  rewrite portal_color_tokens, <- portal_tokens_scan.
  pose proof (portal_tokens_shape output) as S.
  destruct (portal_tokens output) as [|t1 [|t2 [|t3 [|t4 ts]]]]; try reflexivity.
  inversion S as [|? ? S1 S']; subst. inversion S' as [|? ? S2 S'']; subst.
  inversion S'' as [|? ? S3 _]; subst.
  cbn [map portal_color_of color_of_values].
  rewrite !parseFloat_token by assumption. reflexivity.
Qed.
